(** * Status validator of merge-gatekeeper

    A shallow embedding of [internal/validators/status/validator.go]: the
    construction of a status validator, the fetch-and-normalize step
    [listGhaStatuses] over the two upstream sources (combined status and
    check runs), and the decision procedure [Validate].

    Go values are modelled as follows.
    - A [*string] field of an upstream entry is an [option string]
      ([None] is the nil pointer).
    - A function returning [(T, error)] returns an [outcome T]: [Ok v] is
      [(v, nil)], [Err e] is [(nil, e)], and [Panic] is a run-time panic
      (a nil dereference), which returns nothing at all.
    - Slices are lists; [append s x] is [s ++ [x]]. The elements of the
      two upstream slices, and the response of a client call that reports
      no error, are taken to be non-nil.
    - The [int] counter [successCnt] is a [Z]. It is only ever incremented,
      at most once per element of a slice whose length is itself an [int]
      (lemma [validateLoop_cnt_bounds]), so it never wraps. *)

From Stdlib Require Import ZArith.
From stdpp Require Import base tactics option list strings.

Set Warnings "-register-all".

Local Open Scope string_scope.
Local Open Scope list_scope.

(** ** Constants *)

Definition successState : string := "success".
Definition errorState : string := "error".
Definition pendingState : string := "pending".

Definition checkRunCompletedStatus : string := "completed".

Definition checkRunNeutralConclusion : string := "neutral".
Definition checkRunSuccessConclusion : string := "success".

(** ** Errors and outcomes *)

(** The error values the package can return. [ErrorsNew msg] is
    [errors.New(msg)]; [Errors errs] is a [multierror.Errors] slice returned
    as one error value; the two tagged errors are the [fmt.Errorf("%w ...")]
    wrappers of [ErrInvalidCombinedStatusResponse] and
    [ErrInvalidCheckRunResponse], carrying the observed pointers; [ErrClient]
    is whatever error a client call returned. *)
Inductive error : Type :=
  | ErrorsNew (msg : string)
  | Errors (errs : list error)
  | ErrInvalidCombinedStatusResponse (context state : option string)
  | ErrInvalidCheckRunResponse (name status : option string)
  | ErrClient (msg : string).

Inductive outcome (A : Type) : Type :=
  | Ok (a : A)
  | Err (e : error)
  | Panic.
Arguments Ok {A} a.
Arguments Err {A} e.
Arguments Panic {A}.

#[global] Instance outcome_ret : MRet outcome := λ A a, Ok a.
#[global] Instance outcome_bind : MBind outcome := λ A B f m,
  match m with
  | Ok a => f a
  | Err e => Err e
  | Panic => Panic
  end.

(** A client call returns [(value, error)] and does not panic. *)
Definition call {A : Type} (r : error + A) : outcome A :=
  match r with
  | inl e => Err e
  | inr a => Ok a
  end.

(** ** Upstream data ([internal/github]) *)

Module github.

Record RepoStatus : Type := mkRepoStatus
  { Context : option string; State : option string }.

Record CombinedStatus : Type := mkCombinedStatus
  { Statuses : list RepoStatus }.

Record CheckRun : Type := mkCheckRun
  { Name : option string; Status : option string;
    Conclusion : option string }.

Record ListCheckRunsResults : Type := mkListCheckRunsResults
  { CheckRuns : list CheckRun }.

(** The two read operations of the client interface, as functions of
    [owner], [repo] and [ref]. The context and the (empty) list options
    are not modelled; a cancelled context shows as an error result. *)
Record Client : Type := mkClient
  { GetCombinedStatus : string → string → string → error + CombinedStatus;
    ListCheckRunsForRef :
      string → string → string → error + ListCheckRunsResults }.

End github.

(** ** The validator's own data *)

Record ghaStatus : Type := mkGhaStatus
  { Job : string; State : string }.

(** [client] is an interface value: [None] is the nil interface. *)
Record statusValidator : Type := mkStatusValidator
  { repo : string; owner : string; ref : string; selfJobName : string;
    client : option github.Client }.

(** The result record of [Validate] (type [status] of the package). *)
Record status : Type := mkStatus
  { totalJobs : list string; completeJobs : list string; succeeded : bool }.

(** An option is a mutation of the validator under construction. *)
Definition Option := statusValidator → statusValidator.

(** ** Construction *)

Definition validateFields (sv : statusValidator) : option error :=
  let errs : list error := [] in
  let errs :=
    if decide (String.length (repo sv) = 0)
    then errs ++ [ErrorsNew "repository name is empty"] else errs in
  let errs :=
    if decide (String.length (owner sv) = 0)
    then errs ++ [ErrorsNew "repository owner is empty"] else errs in
  let errs :=
    if decide (String.length (ref sv) = 0)
    then errs ++ [ErrorsNew "reference of repository is empty"] else errs in
  let errs :=
    if decide (String.length (selfJobName sv) = 0)
    then errs ++ [ErrorsNew "self job name is empty"] else errs in
  let errs :=
    if decide (client sv = None :> option github.Client)
    then errs ++ [ErrorsNew "github client is empty"] else errs in
  if decide (length errs ≠ 0) then Some (Errors errs) else None.

(** [CreateValidator]: the options are applied in order to a validator that
    holds only the client, then the fields are validated. *)
Definition CreateValidator (c : option github.Client) (opts : list Option)
    : outcome statusValidator :=
  let sv :=
    fold_left (λ sv opt, opt sv) opts
      {| repo := ""; owner := ""; ref := ""; selfJobName := "";
         client := c |} in
  match validateFields sv with
  | Some err => Err err
  | None => Ok sv
  end.

Definition Name (sv : statusValidator) : string := selfJobName sv.

(** ** Fetch and normalize *)

(** Body of the loop over [combined.Statuses] (lines 132-138): the entry is
    rejected when a pointer is nil, and copied unchanged otherwise. *)
Definition combinedEntry (s : github.RepoStatus) : outcome ghaStatus :=
  match github.Context s, github.State s with
  | Some context, Some state => Ok {| Job := context; State := state |}
  | _, _ =>
      Err (ErrInvalidCombinedStatusResponse (github.Context s) (github.State s))
  end.

(** Body of the loop over [runResult.CheckRuns] (lines 147-165). The
    conclusion pointer is dereferenced by the [switch] without a nil test. *)
Definition checkRunEntry (run : github.CheckRun) : outcome ghaStatus :=
  match github.Name run, github.Status run with
  | Some name, Some st =>
      if decide (st ≠ checkRunCompletedStatus)
      then Ok {| Job := name; State := pendingState |}
      else
        match github.Conclusion run with
        | None => Panic
        | Some conclusion =>
            if decide (conclusion = checkRunNeutralConclusion
                       ∨ conclusion = checkRunSuccessConclusion)
            then Ok {| Job := name; State := successState |}
            else Ok {| Job := name; State := errorState |}
        end
  | _, _ =>
      Err (ErrInvalidCheckRunResponse (github.Name run) (github.Status run))
  end.

(** A [for ... range] loop that appends one normalized entry per element to
    the slice [ghaStatuses], and leaves the function at the first element
    whose body does not produce an entry. *)
Fixpoint appendEach {A : Type} (body : A → outcome ghaStatus)
    (entries : list A) (ghaStatuses : list ghaStatus)
    : outcome (list ghaStatus) :=
  match entries with
  | [] => Ok ghaStatuses
  | x :: rest =>
      g ← body x;
      appendEach body rest (ghaStatuses ++ [g])
  end.

Definition listGhaStatuses (sv : statusValidator)
    : outcome (list ghaStatus) :=
  match client sv with
  | None => Panic
  | Some c =>
      combined ← call (github.GetCombinedStatus c (owner sv) (repo sv) (ref sv));
      ghaStatuses ← appendEach combinedEntry (github.Statuses combined) [];
      runResult ←
        call (github.ListCheckRunsForRef c (owner sv) (repo sv) (ref sv));
      appendEach checkRunEntry (github.CheckRuns runResult) ghaStatuses
  end.

(** ** The decision *)

(** Body of the loop of [Validate] (lines 103-113) on the pair of the result
    under construction and [successCnt]. *)
Definition validateStep (self : string) (acc : status * Z) (g : ghaStatus)
    : status * Z :=
  let '(st, successCnt) := acc in
  if decide (Job g = self)
  then (st, (successCnt + 1)%Z)
  else
    let st :=
      {| totalJobs := totalJobs st ++ [Job g];
         completeJobs := completeJobs st; succeeded := succeeded st |} in
    if decide (State g = successState)
    then
      ({| totalJobs := totalJobs st;
          completeJobs := completeJobs st ++ [Job g];
          succeeded := succeeded st |}, (successCnt + 1)%Z)
    else (st, successCnt).

Definition validateLoop (self : string) (ghaStatuses : list ghaStatus)
    (acc : status * Z) : status * Z :=
  fold_left (validateStep self) ghaStatuses acc.

(** Lines 95-121 of [Validate]: what it does with a fetched job list. *)
Definition validateJobs (self : string) (ghaStatuses : list ghaStatus)
    : status :=
  let st := {| totalJobs := []; completeJobs := []; succeeded := true |} in
  let '(st, successCnt) := validateLoop self ghaStatuses (st, 0%Z) in
  if decide (Z.of_nat (length ghaStatuses) ≠ successCnt)
  then {| totalJobs := totalJobs st; completeJobs := completeJobs st;
          succeeded := false |}
  else st.

Definition Validate (sv : statusValidator) : outcome status :=
  ghaStatuses ← listGhaStatuses sv;
  Ok (validateJobs (selfJobName sv) ghaStatuses).

(** ** Vocabulary of the specification *)

(** The success tally as the specification words it: every self-named job,
    plus every other job whose state is [success]. *)
Definition tally (self : string) (jobs : list ghaStatus) : nat :=
  length (filter (λ g, Job g = self) jobs)
  + length (filter (λ g, Job g ≠ self ∧ State g = successState) jobs).

(** The names of the jobs that are not the validator's own, in order. *)
Definition requiredJobs (self : string) (jobs : list ghaStatus)
    : list string :=
  Job <$> filter (λ g, Job g ≠ self) jobs.

(** The names of those among them that reached [success], in order. *)
Definition successfulJobs (self : string) (jobs : list ghaStatus)
    : list string :=
  Job <$> filter (λ g, Job g ≠ self ∧ State g = successState) jobs.

(** How often a name occurs in a list of names. *)
Definition occurrences (n : string) (names : list string) : nat :=
  length (filter (λ x, x = n) names).

Definition closedState (s : string) : Prop :=
  s = successState ∨ s = errorState ∨ s = pendingState.

(** The five conditions of a well-configured validator, and how many of them
    a validator violates. *)
Definition wellConfigured (sv : statusValidator) : Prop :=
  repo sv ≠ "" ∧ owner sv ≠ "" ∧ ref sv ≠ "" ∧ selfJobName sv ≠ ""
  ∧ client sv ≠ None.

Definition violations (sv : statusValidator) : nat :=
  (if decide (repo sv = "") then 1 else 0)
  + (if decide (owner sv = "") then 1 else 0)
  + (if decide (ref sv = "") then 1 else 0)
  + (if decide (selfJobName sv = "") then 1 else 0)
  + (if decide (client sv = None :> option github.Client) then 1 else 0).

(** The validator that [CreateValidator] checks: the options applied in
    order to the validator holding only the client. *)
Definition configured (c : option github.Client) (opts : list Option)
    : statusValidator :=
  fold_left (λ sv opt, opt sv) opts
    {| repo := ""; owner := ""; ref := ""; selfJobName := ""; client := c |}.

(** A check-run entry that the [switch] can read: if it is completed, its
    conclusion is present. *)
Definition concluded (run : github.CheckRun) : Prop :=
  github.Status run = Some checkRunCompletedStatus →
  github.Conclusion run ≠ None.

(** A check-run entry that yields a job. *)
Definition normalizes (run : github.CheckRun) : Prop :=
  ∃ g, checkRunEntry run = Ok g.

(** The client of [sv] answers the two requests of one [Validate] call with
    the entries [statuses] and [runs]. *)
Definition answers (sv : statusValidator) (statuses : list github.RepoStatus)
    (runs : list github.CheckRun) : Prop :=
  ∃ c, client sv = Some c
    ∧ github.GetCombinedStatus c (owner sv) (repo sv) (ref sv)
      = inr {| github.Statuses := statuses |}
    ∧ github.ListCheckRunsForRef c (owner sv) (repo sv) (ref sv)
      = inr {| github.CheckRuns := runs |}.

(** Entries that lack a required field. *)
Definition malformedStatus (s : github.RepoStatus) : Prop :=
  github.Context s = None ∨ github.State s = None.

Definition malformedRun (run : github.CheckRun) : Prop :=
  github.Name run = None ∨ github.Status run = None.

#[global] Instance malformedStatus_dec (s : github.RepoStatus) :
  Decision (malformedStatus s).
Proof. unfold malformedStatus. apply _. Defined.

#[global] Instance malformedRun_dec (run : github.CheckRun) :
  Decision (malformedRun run).
Proof. unfold malformedRun. apply _. Defined.

(** ** Test doubles *)

(** A client that answers every request with the same two lists. *)
Definition fixedClient (statuses : list github.RepoStatus)
    (runs : list github.CheckRun) : github.Client :=
  {| github.GetCombinedStatus := λ _ _ _,
       inr {| github.Statuses := statuses |};
     github.ListCheckRunsForRef := λ _ _ _,
       inr {| github.CheckRuns := runs |} |}.

Definition gatekeeper (statuses : list github.RepoStatus)
    (runs : list github.CheckRun) : statusValidator :=
  {| repo := "merge-gatekeeper"; owner := "upsidr"; ref := "main";
     selfJobName := "gatekeeper";
     client := Some (fixedClient statuses runs) |}.

Definition legacy (context state : string) : github.RepoStatus :=
  {| github.Context := Some context; github.State := Some state |}.

Definition completedRun (name conclusion : string) : github.CheckRun :=
  {| github.Name := Some name;
     github.Status := Some checkRunCompletedStatus;
     github.Conclusion := Some conclusion |}.

Definition runningRun (name st : string) : github.CheckRun :=
  {| github.Name := Some name; github.Status := Some st;
     github.Conclusion := None |}.

(** A client whose combined-status request fails with [e]. *)
Definition offlineClient (e : error) (runs : list github.CheckRun)
    : github.Client :=
  {| github.GetCombinedStatus := λ _ _ _, inl e;
     github.ListCheckRunsForRef := λ _ _ _,
       inr {| github.CheckRuns := runs |} |}.

(** A client whose check-run request fails with [e]. *)
Definition legacyOnlyClient (statuses : list github.RepoStatus) (e : error)
    : github.Client :=
  {| github.GetCombinedStatus := λ _ _ _,
       inr {| github.Statuses := statuses |};
     github.ListCheckRunsForRef := λ _ _ _, inl e |}.

Definition gatekeeperWith (c : github.Client) : statusValidator :=
  {| repo := "merge-gatekeeper"; owner := "upsidr"; ref := "main";
     selfJobName := "gatekeeper"; client := Some c |}.

(** ** The scenarios of the specification *)

Example scenario_A :
  Validate (gatekeeper [legacy "lint" "success"] [completedRun "test" "success"])
  = Ok {| totalJobs := ["lint"; "test"]; completeJobs := ["lint"; "test"];
          succeeded := true |}.
Proof. reflexivity. Qed.

Example scenario_B :
  Validate (gatekeeper [legacy "lint" "pending"] [])
  = Ok {| totalJobs := ["lint"]; completeJobs := []; succeeded := false |}.
Proof. reflexivity. Qed.

Example scenario_C :
  listGhaStatuses (gatekeeper [] [runningRun "build" "in_progress"])
  = Ok [{| Job := "build"; State := "pending" |}]
  ∧ Validate (gatekeeper [] [runningRun "build" "in_progress"])
    = Ok {| totalJobs := ["build"]; completeJobs := []; succeeded := false |}.
Proof. split; reflexivity. Qed.

Example scenario_D :
  Validate
    (gatekeeper [{| github.Context := None; github.State := Some "success" |}]
       [])
  = Err (ErrInvalidCombinedStatusResponse None (Some "success")).
Proof. reflexivity. Qed.

(** ** The append loop *)

Section AppendEach.
Context {A : Type} (body : A → outcome ghaStatus).

Lemma appendEach_app (pre post : list A) (acc : list ghaStatus) :
  appendEach body (pre ++ post) acc
  = acc' ← appendEach body pre acc; appendEach body post acc'.
Proof.
  revert acc. induction pre as [|x pre IH]; intros acc; simpl; [done|].
  destruct (body x) as [g| |]; simpl; [apply IH|done|done].
Qed.

(** The loop returns a slice exactly when every body produced an entry;
    the slice is then the old one followed by the entries, in order. *)
Lemma appendEach_Ok (xs : list A) (acc r : list ghaStatus) :
  appendEach body xs acc = Ok r
  ↔ ∃ gs, Forall2 (λ x g, body x = Ok g) xs gs ∧ r = acc ++ gs.
Proof.
  revert acc. induction xs as [|x xs IH]; intros acc; simpl.
  - split.
    + intros [= <-]. exists []. split; [constructor|by rewrite app_nil_r].
    + intros (gs & Hgs & ->). inversion Hgs. by rewrite app_nil_r.
  - destruct (body x) as [g| |] eqn:Hx; simpl.
    + rewrite IH. split.
      * intros (gs & Hgs & ->). exists (g :: gs).
        split; [by constructor|by rewrite <- app_assoc].
      * intros (gs & Hgs & ->). inversion Hgs as [|? g' ? gs' Hg Hgs']; subst.
        assert (g' = g) as -> by congruence.
        exists gs'. split; [done|by rewrite <- app_assoc].
    + split; [done|]. intros (gs & Hgs & _). inversion Hgs; congruence.
    + split; [done|]. intros (gs & Hgs & _). inversion Hgs; congruence.
Qed.

(** The loop stops at the first element whose body fails, with the result
    of that body. *)
Lemma appendEach_stop (pre : list A) (x : A) (post : list A)
    (acc : list ghaStatus) :
  Forall (λ y, ∃ g, body y = Ok g) pre →
  (∀ g, body x ≠ Ok g) →
  appendEach body (pre ++ x :: post) acc
  = match body x with Ok _ => Panic | Err e => Err e | Panic => Panic end.
Proof.
  intros Hpre Hx. revert acc.
  induction Hpre as [|y pre [g Hy] _ IH]; intros acc; simpl.
  - destruct (body x) as [g| |]; [by destruct (Hx g)|done|done].
  - rewrite Hy. simpl. apply IH.
Qed.

(** Every list splits at its first failing element, if it has one. *)
Lemma first_failure (xs : list A) :
  Forall (λ y, ∃ g, body y = Ok g) xs
  ∨ ∃ pre x post, xs = pre ++ x :: post
      ∧ Forall (λ y, ∃ g, body y = Ok g) pre ∧ ∀ g, body x ≠ Ok g.
Proof.
  induction xs as [|x xs IH]; [left; constructor|].
  destruct (body x) as [g| |] eqn:Hx.
  - destruct IH as [IH|(pre & y & post & -> & Hpre & Hy)].
    + left. constructor; eauto.
    + right. exists (x :: pre), y, post. repeat split; [|done].
      constructor; eauto.
  - right. exists [], x, xs. repeat split; [constructor|]. congruence.
  - right. exists [], x, xs. repeat split; [constructor|]. congruence.
Qed.

Lemma appendEach_total (xs : list A) (acc : list ghaStatus) :
  Forall (λ y, ∃ g, body y = Ok g) xs → ∃ r, appendEach body xs acc = Ok r.
Proof.
  intros Hxs. revert acc.
  induction Hxs as [|y xs [g Hy] _ IH]; intros acc; simpl; [eauto|].
  rewrite Hy. simpl. apply IH.
Qed.

End AppendEach.

(** ** The decision loop *)

Section Decision.
Variable self : string.

Lemma tally_nil : tally self [] = 0.
Proof. reflexivity. Qed.

Lemma tally_cons (g : ghaStatus) (jobs : list ghaStatus) :
  tally self (g :: jobs)
  = (if decide (Job g = self ∨ State g = successState) then 1 else 0)
    + tally self jobs.
Proof.
  unfold tally. rewrite !filter_cons.
  repeat case_decide; simpl; try lia; tauto.
Qed.

Lemma tally_le_length (jobs : list ghaStatus) :
  (tally self jobs ≤ length jobs)%nat.
Proof.
  induction jobs as [|g jobs IH]; [done|].
  rewrite tally_cons. simpl. case_decide; lia.
Qed.

(** The tally reaches the number of jobs exactly when no job is left out
    of it. *)
Lemma tally_full (jobs : list ghaStatus) :
  tally self jobs = length jobs
  ↔ Forall (λ g, Job g = self ∨ State g = successState) jobs.
Proof.
  induction jobs as [|g jobs IH]; [by split; [constructor|]|].
  rewrite tally_cons, Forall_cons. simpl.
  pose proof (tally_le_length jobs). case_decide.
  - rewrite <- IH. split; [intros; split; [done|lia]|intros [_ ->]; done].
  - split; [lia|]. by intros [? _].
Qed.

(** What the loop has built and counted after a list of jobs. *)
Lemma validateLoop_spec (jobs : list ghaStatus) (st : status) (cnt : Z) :
  validateLoop self jobs (st, cnt)
  = ({| totalJobs := totalJobs st ++ requiredJobs self jobs;
        completeJobs := completeJobs st ++ successfulJobs self jobs;
        succeeded := succeeded st |},
     (cnt + Z.of_nat (tally self jobs))%Z).
Proof.
  unfold validateLoop. revert st cnt.
  induction jobs as [|g jobs IH]; intros st cnt.
  - simpl. unfold requiredJobs, successfulJobs. simpl.
    rewrite !app_nil_r, Z.add_0_r. by destruct st.
  - cbn [fold_left]. rewrite tally_cons.
    unfold requiredJobs, successfulJobs in *. rewrite !filter_cons.
    unfold validateStep at 2.
    repeat case_decide; try tauto;
      rewrite IH; cbn [totalJobs completeJobs succeeded fmap list_fmap];
      rewrite <- ?app_assoc; simpl; f_equal; lia.
Qed.

(** The counter stays between zero and the length of the slice, so the
    [int] of the source never overflows. *)
Lemma validateLoop_cnt_bounds (jobs : list ghaStatus) (st : status) :
  (0 ≤ (validateLoop self jobs (st, 0%Z)).2 ≤ Z.of_nat (length jobs))%Z.
Proof.
  rewrite validateLoop_spec. simpl. pose proof (tally_le_length jobs). lia.
Qed.

Lemma validateJobs_spec (jobs : list ghaStatus) :
  validateJobs self jobs
  = {| totalJobs := requiredJobs self jobs;
       completeJobs := successfulJobs self jobs;
       succeeded := bool_decide (tally self jobs = length jobs) |}.
Proof.
  unfold validateJobs. rewrite validateLoop_spec. simpl.
  case_decide; case_bool_decide; try done; lia.
Qed.

Lemma successfulJobs_sublist (jobs : list ghaStatus) :
  successfulJobs self jobs `sublist_of` requiredJobs self jobs.
Proof.
  unfold successfulJobs, requiredJobs.
  induction jobs as [|g jobs IH]; [constructor|].
  rewrite !filter_cons. repeat case_decide; try tauto; simpl.
  - by constructor.
  - by apply sublist_cons.
Qed.

End Decision.

(** ** The two loop bodies *)

Lemma combinedEntry_Ok (s : github.RepoStatus) (g : ghaStatus) :
  combinedEntry s = Ok g
  ↔ github.Context s = Some (Job g) ∧ github.State s = Some (State g).
Proof.
  unfold combinedEntry. destruct s as [[c|] [st|]], g as [j t]; simpl;
    split; try done; try (by intros [? ?]).
  - by intros [= -> ->].
  - by intros [[= ->] [= ->]].
Qed.

Lemma combinedEntry_malformed (s : github.RepoStatus) :
  malformedStatus s →
  combinedEntry s
  = Err (ErrInvalidCombinedStatusResponse (github.Context s) (github.State s)).
Proof.
  unfold combinedEntry, malformedStatus.
  destruct s as [[c|] [st|]]; simpl; intros [?|?]; done.
Qed.

Lemma combinedEntry_cases (s : github.RepoStatus) :
  (∃ g, combinedEntry s = Ok g) ∨ malformedStatus s.
Proof.
  unfold combinedEntry, malformedStatus.
  destruct s as [[c|] [st|]]; simpl; eauto.
Qed.

Lemma checkRunEntry_malformed (run : github.CheckRun) :
  malformedRun run →
  checkRunEntry run
  = Err (ErrInvalidCheckRunResponse (github.Name run) (github.Status run)).
Proof.
  unfold checkRunEntry, malformedRun.
  destruct run as [[n|] [st|] c]; simpl; intros [?|?]; done.
Qed.

Lemma checkRunEntry_pending (run : github.CheckRun) (name st : string) :
  github.Name run = Some name → github.Status run = Some st →
  st ≠ checkRunCompletedStatus →
  checkRunEntry run = Ok {| Job := name; State := pendingState |}.
Proof.
  unfold checkRunEntry. intros -> -> Hst. by rewrite decide_True.
Qed.

Lemma checkRunEntry_completed (run : github.CheckRun)
    (name conclusion : string) :
  github.Name run = Some name →
  github.Status run = Some checkRunCompletedStatus →
  github.Conclusion run = Some conclusion →
  checkRunEntry run
  = Ok {| Job := name;
          State := if decide (conclusion = checkRunNeutralConclusion
                              ∨ conclusion = checkRunSuccessConclusion)
                   then successState else errorState |}.
Proof.
  unfold checkRunEntry. intros -> -> ->.
  rewrite decide_False by (intros H; by apply H). by case_decide.
Qed.

Lemma checkRunEntry_nil_conclusion (run : github.CheckRun) (name : string) :
  github.Name run = Some name →
  github.Status run = Some checkRunCompletedStatus →
  github.Conclusion run = None →
  checkRunEntry run = Panic.
Proof.
  unfold checkRunEntry. intros -> -> ->.
  by rewrite decide_False by (intros H; by apply H).
Qed.

(** A check-run entry faults only when it is completed without conclusion. *)
Lemma checkRunEntry_concluded (run : github.CheckRun) :
  concluded run → checkRunEntry run ≠ Panic.
Proof.
  unfold concluded, checkRunEntry.
  destruct run as [[n|] [st|] [c|]]; simpl; intros H; try done;
    repeat case_decide; try done.
  destruct H; [|done]. f_equal.
  destruct (decide (st = checkRunCompletedStatus)); [done|tauto].
Qed.

Lemma checkRunEntry_cases (run : github.CheckRun) :
  concluded run → normalizes run ∨ malformedRun run.
Proof.
  intros H. apply checkRunEntry_concluded in H. revert H.
  unfold normalizes, malformedRun, checkRunEntry.
  destruct run as [[n|] [st|] [c|]]; simpl; eauto;
    repeat case_decide; eauto. done.
Qed.

(** Every job that comes out of a check run is in one of the three states. *)
Lemma checkRunEntry_closed (run : github.CheckRun) (g : ghaStatus) :
  checkRunEntry run = Ok g → closedState (State g).
Proof.
  unfold checkRunEntry, closedState.
  destruct run as [[n|] [st|] [c|]]; simpl; try done;
    repeat case_decide; intros [= <-]; simpl; tauto.
Qed.

Lemma checkRunEntry_Job (run : github.CheckRun) (g : ghaStatus) :
  checkRunEntry run = Ok g → github.Name run = Some (Job g).
Proof.
  unfold checkRunEntry.
  destruct run as [[n|] [st|] [c|]]; simpl; try done;
    repeat case_decide; by intros [= <-].
Qed.

(** ** The fetch as a whole *)

Lemma listGhaStatuses_answers (sv : statusValidator)
    (statuses : list github.RepoStatus) (runs : list github.CheckRun) :
  answers sv statuses runs →
  listGhaStatuses sv
  = ghaStatuses ← appendEach combinedEntry statuses [];
    appendEach checkRunEntry runs ghaStatuses.
Proof.
  intros (c & Hc & Hcombined & Hruns). unfold listGhaStatuses.
  rewrite Hc, Hcombined. simpl.
  destruct (appendEach combinedEntry statuses []); simpl; [|done|done].
  by rewrite Hruns.
Qed.

(** A fetch that returns a job list has had both of its requests answered. *)
Lemma listGhaStatuses_Ok_answers (sv : statusValidator)
    (jobs : list ghaStatus) :
  listGhaStatuses sv = Ok jobs → ∃ statuses runs, answers sv statuses runs.
Proof.
  unfold listGhaStatuses, answers.
  destruct (client sv) as [c|]; [|done].
  destruct (github.GetCombinedStatus c _ _ _) as [e|[statuses]] eqn:Hcombined;
    [done|]. simpl.
  destruct (appendEach combinedEntry statuses []); simpl; [|done|done].
  destruct (github.ListCheckRunsForRef c _ _ _) as [e|[runs]] eqn:Hruns;
    [done|]. eauto 10.
Qed.

Lemma listGhaStatuses_Ok (sv : statusValidator)
    (statuses : list github.RepoStatus) (runs : list github.CheckRun)
    (jobs : list ghaStatus) :
  answers sv statuses runs →
  listGhaStatuses sv = Ok jobs
  ↔ ∃ legacyJobs runJobs,
      Forall2 (λ s g, combinedEntry s = Ok g) statuses legacyJobs
      ∧ Forall2 (λ run g, checkRunEntry run = Ok g) runs runJobs
      ∧ jobs = legacyJobs ++ runJobs.
Proof.
  intros Hans. rewrite (listGhaStatuses_answers _ _ _ Hans). split.
  - destruct (appendEach combinedEntry statuses []) as [js| |] eqn:Hjs;
      simpl; [|done|done].
    apply appendEach_Ok in Hjs as (legacyJobs & Hlegacy & ->).
    rewrite appendEach_Ok. intros (runJobs & Hrun & ->). eauto.
  - intros (legacyJobs & runJobs & Hlegacy & Hrun & ->).
    assert (appendEach combinedEntry statuses [] = Ok legacyJobs) as ->
      by (apply appendEach_Ok; eauto).
    simpl. apply appendEach_Ok. eauto.
Qed.

Lemma Validate_Ok (sv : statusValidator) (jobs : list ghaStatus) :
  listGhaStatuses sv = Ok jobs →
  Validate sv = Ok (validateJobs (selfJobName sv) jobs).
Proof. unfold Validate. by intros ->. Qed.

Lemma Validate_not_Ok (sv : statusValidator) :
  (∀ jobs, listGhaStatuses sv ≠ Ok jobs) →
  Validate sv
  = match listGhaStatuses sv with
    | Ok _ => Panic
    | Err e => Err e
    | Panic => Panic
    end.
Proof.
  unfold Validate. intros H.
  destruct (listGhaStatuses sv) as [jobs| |]; [by destruct (H jobs)|done|done].
Qed.

(** ** More on the tally and on counting names *)

Lemma tally_app (self : string) (jobs1 jobs2 : list ghaStatus) :
  tally self (jobs1 ++ jobs2) = tally self jobs1 + tally self jobs2.
Proof.
  induction jobs1 as [|g jobs1 IH]; [done|].
  simpl. rewrite !tally_cons, IH. lia.
Qed.

Lemma requiredJobs_app (self : string) (jobs1 jobs2 : list ghaStatus) :
  requiredJobs self (jobs1 ++ jobs2)
  = requiredJobs self jobs1 ++ requiredJobs self jobs2.
Proof. unfold requiredJobs. by rewrite filter_app, fmap_app. Qed.

Lemma successfulJobs_app (self : string) (jobs1 jobs2 : list ghaStatus) :
  successfulJobs self (jobs1 ++ jobs2)
  = successfulJobs self jobs1 ++ successfulJobs self jobs2.
Proof. unfold successfulJobs. by rewrite filter_app, fmap_app. Qed.

Lemma self_not_required (self : string) (jobs : list ghaStatus) :
  self ∉ requiredJobs self jobs.
Proof.
  unfold requiredJobs. intros (g & -> & Hg)%list_elem_of_fmap.
  by apply list_elem_of_filter in Hg as [Hne _].
Qed.

Lemma occurrences_required (self n : string) (jobs : list ghaStatus) :
  n ≠ self →
  occurrences n (requiredJobs self jobs)
  = length (filter (λ g, Job g = n) jobs).
Proof.
  intros Hn. unfold occurrences, requiredJobs.
  induction jobs as [|g jobs IH]; [done|].
  rewrite !(filter_cons _ g).
  destruct (decide (Job g = n)) as [Hg|Hg].
  - rewrite decide_True by congruence. rewrite fmap_cons, filter_cons.
    rewrite decide_True by done. simpl. by rewrite IH.
  - destruct (decide (Job g ≠ self)); [|done].
    rewrite fmap_cons, filter_cons. by rewrite decide_False.
Qed.



(** ** The decision rule *)

(** C1. For every fetched job list, [Validate] returns a result whose
    [succeeded] flag is true exactly when the success tally (every
    self-named job, plus every other job whose state is [success]) equals
    the number of fetched jobs; the counter of the loop is that tally. For a
    fetch that returns no job, [succeeded] is true and both [totalJobs] and
    [completeJobs] are empty. *)
Theorem C1_succeeded_iff_tally_is_total (sv : statusValidator)
    (jobs : list ghaStatus) :
  listGhaStatuses sv = Ok jobs →
  ∃ st, Validate sv = Ok st
    ∧ (validateLoop (selfJobName sv) jobs
         ({| totalJobs := []; completeJobs := []; succeeded := true |}, 0%Z)).2
      = Z.of_nat (tally (selfJobName sv) jobs)
    ∧ ((succeeded st = true) ↔ (tally (selfJobName sv) jobs = length jobs))
    ∧ (jobs = [] →
       succeeded st = true ∧ totalJobs st = [] ∧ completeJobs st = []).
Proof.
  intros Hfetch. eexists. split; [by apply Validate_Ok|].
  rewrite validateLoop_spec, validateJobs_spec. simpl.
  split; [done|]. split; [apply bool_decide_eq_true|]. by intros ->.
Qed.

Lemma C1_witness :
  listGhaStatuses
    (gatekeeper [legacy "lint" "success"; legacy "gatekeeper" "pending"]
       [completedRun "test" "failure"])
  = Ok [ {| Job := "lint"; State := "success" |};
         {| Job := "gatekeeper"; State := "pending" |};
         {| Job := "test"; State := "error" |} ]
  ∧ ∃ st,
      Validate
        (gatekeeper [legacy "lint" "success"; legacy "gatekeeper" "pending"]
           [completedRun "test" "failure"])
      = Ok st
      ∧ (validateLoop "gatekeeper"
           [ {| Job := "lint"; State := "success" |};
             {| Job := "gatekeeper"; State := "pending" |};
             {| Job := "test"; State := "error" |} ]
           ({| totalJobs := []; completeJobs := []; succeeded := true |},
            0%Z)).2
        = Z.of_nat
            (tally "gatekeeper"
               [ {| Job := "lint"; State := "success" |};
                 {| Job := "gatekeeper"; State := "pending" |};
                 {| Job := "test"; State := "error" |} ])
      ∧ ((succeeded st = true)
         ↔ (tally "gatekeeper"
              [ {| Job := "lint"; State := "success" |};
                {| Job := "gatekeeper"; State := "pending" |};
                {| Job := "test"; State := "error" |} ]
            = 3))
      ∧ ([ {| Job := "lint"; State := "success" |};
           {| Job := "gatekeeper"; State := "pending" |};
           {| Job := "test"; State := "error" |} ] = [] →
         succeeded st = true ∧ totalJobs st = [] ∧ completeJobs st = []).
Proof.
  split; [reflexivity|].
  apply (C1_succeeded_iff_tally_is_total
           (gatekeeper
              [legacy "lint" "success"; legacy "gatekeeper" "pending"]
              [completedRun "test" "failure"])).
  reflexivity.
Defined.

(** C2. A fetched job that bears the self job name is never added to
    [totalJobs]; the loop body counts it and changes nothing else, whatever
    its state; it adds one to the tally; and the result of [Validate] is the
    result for the same list without that job, so it cannot be what makes
    [succeeded] false. *)
Theorem C2_self_job_never_blocks (sv : statusValidator)
    (pre post : list ghaStatus) (g : ghaStatus) :
  Job g = selfJobName sv →
  listGhaStatuses sv = Ok (pre ++ g :: post) →
  ∃ st, Validate sv = Ok st
    ∧ (Job g ∉ totalJobs st)
    ∧ (∀ acc cnt,
         validateStep (selfJobName sv) (acc, cnt) g = (acc, (cnt + 1)%Z))
    ∧ tally (selfJobName sv) (pre ++ g :: post)
      = S (tally (selfJobName sv) (pre ++ post))
    ∧ st = validateJobs (selfJobName sv) (pre ++ post)
    ∧ (Forall (λ h, Job h ≠ selfJobName sv → State h = successState)
         (pre ++ post) →
       succeeded st = true).
Proof.
  intros Hself Hfetch. eexists. split; [by apply Validate_Ok|].
  assert (tally (selfJobName sv) (pre ++ g :: post)
          = S (tally (selfJobName sv) (pre ++ post))) as Htally.
  { rewrite !tally_app, tally_cons.
    rewrite decide_True by (by left). lia. }
  assert (validateJobs (selfJobName sv) (pre ++ g :: post)
          = validateJobs (selfJobName sv) (pre ++ post)) as Hsame.
  { rewrite !validateJobs_spec. f_equal.
    - rewrite !requiredJobs_app. f_equal. unfold requiredJobs.
      rewrite filter_cons. by rewrite decide_False by tauto.
    - rewrite !successfulJobs_app. f_equal. unfold successfulJobs.
      rewrite filter_cons. by rewrite decide_False by tauto.
    - rewrite Htally, !length_app. simpl.
      apply bool_decide_ext. lia. }
  repeat split.
  - rewrite validateJobs_spec, Hself. simpl. apply self_not_required.
  - intros acc cnt. unfold validateStep. by rewrite decide_True.
  - done.
  - done.
  - intros Hall. rewrite Hsame, validateJobs_spec. simpl.
    apply bool_decide_eq_true, tally_full.
    eapply Forall_impl; [exact Hall|]. simpl. intros h Hh.
    destruct (decide (Job h = selfJobName sv)); [by left|right; auto].
Qed.

Lemma C2_witness :
  Job {| Job := "gatekeeper"; State := "error" |} = "gatekeeper"
  ∧ listGhaStatuses
      (gatekeeper [legacy "lint" "success"]
         [completedRun "gatekeeper" "failure"; completedRun "test" "neutral"])
    = Ok ([{| Job := "lint"; State := "success" |}]
          ++ {| Job := "gatekeeper"; State := "error" |}
             :: [{| Job := "test"; State := "success" |}])
  ∧ ∃ st,
      Validate
        (gatekeeper [legacy "lint" "success"]
           [completedRun "gatekeeper" "failure";
            completedRun "test" "neutral"])
      = Ok st
      ∧ ("gatekeeper" ∉ totalJobs st)
      ∧ succeeded st = true.
Proof.
  split; [reflexivity|]. split; [reflexivity|].
  destruct (C2_self_job_never_blocks
              (gatekeeper [legacy "lint" "success"]
                 [completedRun "gatekeeper" "failure";
                  completedRun "test" "neutral"])
              [{| Job := "lint"; State := "success" |}]
              [{| Job := "test"; State := "success" |}]
              {| Job := "gatekeeper"; State := "error" |}
              eq_refl eq_refl)
    as (st & Hst & Hnot & _ & _ & _ & Hsucc).
  exists st. split; [exact Hst|]. split; [exact Hnot|].
  apply Hsucc. repeat constructor.
Defined.

(** C6, as stated, does not hold: a fetch whose only job is the validator's
    own, still pending, yields [succeeded = true] although not every fetched
    job reported [success]. *)
Lemma C6_counterexample :
  ∃ st,
    listGhaStatuses (gatekeeper [legacy "gatekeeper" "pending"] [])
    = Ok [{| Job := "gatekeeper"; State := "pending" |}]
    ∧ Validate (gatekeeper [legacy "gatekeeper" "pending"] []) = Ok st
    ∧ ¬ ((succeeded st = true)
         ↔ Forall (λ g, State g = successState)
             [{| Job := "gatekeeper"; State := "pending" |}]).
Proof.
  eexists. split; [reflexivity|]. split; [reflexivity|].
  simpl. intros [Hall _]. specialize (Hall eq_refl).
  apply Forall_cons in Hall as [Hst _]. discriminate Hst.
Qed.

(** C6, amended. For every fetched job list, the [succeeded] flag of the
    result is true exactly when every fetched job whose name is not the self
    job name reported state [success]; the state of a self-named job is not
    looked at. *)
Theorem C6_succeeded_iff_others_succeeded (sv : statusValidator)
    (jobs : list ghaStatus) :
  listGhaStatuses sv = Ok jobs →
  ∃ st, Validate sv = Ok st
    ∧ ((succeeded st = true)
       ↔ Forall (λ g, Job g ≠ selfJobName sv → State g = successState) jobs).
Proof.
  intros Hfetch. eexists. split; [by apply Validate_Ok|].
  rewrite validateJobs_spec. simpl.
  rewrite bool_decide_eq_true, tally_full. apply Forall_iff. intros g.
  destruct (decide (Job g = selfJobName sv)); tauto.
Qed.

Lemma C6_witness :
  listGhaStatuses
    (gatekeeper [legacy "gatekeeper" "pending"] [completedRun "test" "success"])
  = Ok [ {| Job := "gatekeeper"; State := "pending" |};
         {| Job := "test"; State := "success" |} ]
  ∧ ∃ st,
      Validate
        (gatekeeper [legacy "gatekeeper" "pending"]
           [completedRun "test" "success"])
      = Ok st
      ∧ ((succeeded st = true)
         ↔ Forall (λ g, Job g ≠ "gatekeeper" → State g = successState)
             [ {| Job := "gatekeeper"; State := "pending" |};
               {| Job := "test"; State := "success" |} ]).
Proof.
  split; [reflexivity|].
  apply (C6_succeeded_iff_others_succeeded
           (gatekeeper [legacy "gatekeeper" "pending"]
              [completedRun "test" "success"])).
  reflexivity.
Defined.

(** ** Order of the output *)

Lemma Validate_Ok_inv (sv : statusValidator) (st : status) :
  Validate sv = Ok st →
  ∃ jobs, listGhaStatuses sv = Ok jobs
    ∧ st = validateJobs (selfJobName sv) jobs.
Proof.
  unfold Validate. destruct (listGhaStatuses sv) as [jobs| |]; simpl;
    [|done|done].
  intros [= <-]. eauto.
Qed.

(** C8. For every successful [Validate] call, the normalized sequence is the
    jobs of the combined-status entries, in upstream order, followed by the
    jobs of the check-run entries, in upstream order; [totalJobs] lists the
    names of the jobs other than the self job in that order, [completeJobs]
    the names of the successful ones among them in that order, and
    [completeJobs] is a subsequence of [totalJobs]. *)
Theorem C8_order_is_preserved (sv : statusValidator) (st : status) :
  Validate sv = Ok st →
  ∃ statuses runs legacyJobs runJobs,
    answers sv statuses runs
    ∧ listGhaStatuses sv = Ok (legacyJobs ++ runJobs)
    ∧ Forall2
        (λ s g, github.Context s = Some (Job g)
                ∧ github.State s = Some (State g))
        statuses legacyJobs
    ∧ Forall2
        (λ run g, github.Name run = Some (Job g) ∧ checkRunEntry run = Ok g)
        runs runJobs
    ∧ totalJobs st
      = Job <$> filter (λ g, Job g ≠ selfJobName sv) (legacyJobs ++ runJobs)
    ∧ completeJobs st
      = Job <$> filter (λ g, Job g ≠ selfJobName sv
                            ∧ State g = successState)
                  (legacyJobs ++ runJobs)
    ∧ completeJobs st `sublist_of` totalJobs st.
Proof.
  intros (jobs & Hfetch & ->)%Validate_Ok_inv.
  destruct (listGhaStatuses_Ok_answers _ _ Hfetch) as (statuses & runs & Hans).
  pose proof Hfetch as Hjobs.
  rewrite (listGhaStatuses_Ok _ _ _ _ Hans) in Hjobs.
  destruct Hjobs as (legacyJobs & runJobs & Hlegacy & Hrun & ->).
  exists statuses, runs, legacyJobs, runJobs.
  rewrite validateJobs_spec. simpl. repeat split; try done.
  - eapply Forall2_impl; [exact Hlegacy|]. simpl. intros s g.
    by rewrite combinedEntry_Ok.
  - eapply Forall2_impl; [exact Hrun|]. simpl. intros run g Hg.
    split; [by apply checkRunEntry_Job|done].
  - apply successfulJobs_sublist.
Qed.

Lemma C8_witness :
  Validate
    (gatekeeper [legacy "lint" "success"; legacy "gatekeeper" "pending"]
       [completedRun "test" "failure"; completedRun "build" "neutral"])
  = Ok {| totalJobs := ["lint"; "test"; "build"];
          completeJobs := ["lint"; "build"]; succeeded := false |}
  ∧ ["lint"; "build"] `sublist_of` ["lint"; "test"; "build"].
Proof.
  split; [reflexivity|].
  destruct (C8_order_is_preserved
              (gatekeeper
                 [legacy "lint" "success"; legacy "gatekeeper" "pending"]
                 [completedRun "test" "failure"; completedRun "build" "neutral"])
              {| totalJobs := ["lint"; "test"; "build"];
                 completeJobs := ["lint"; "build"]; succeeded := false |}
              eq_refl)
    as (_ & _ & _ & _ & _ & _ & _ & _ & _ & _ & Hsub).
  exact Hsub.
Defined.

(** ** Duplicate names *)




(** ** The states a job can carry *)

(** C7, as stated, does not hold: a combined-status entry with the upstream
    state [failure] yields a job whose state is [failure], which is none of
    the three values. *)
Lemma C7_counterexample :
  listGhaStatuses (gatekeeper [legacy "lint" "failure"] [])
  = Ok [{| Job := "lint"; State := "failure" |}]
  ∧ ¬ closedState (State {| Job := "lint"; State := "failure" |}).
Proof.
  split; [reflexivity|]. unfold closedState. simpl.
  intros [H|[H|H]]; discriminate H.
Qed.

(** C7, amended. In every job list that the fetch-and-normalize step
    returns, a job produced from a check-run entry has a state that is one
    of [success], [error] and [pending]; a job produced from a
    combined-status entry carries the upstream state string unchanged, so
    the whole list is within the three values as soon as the upstream states
    are. *)
Theorem C7_states_of_fetched_jobs (sv : statusValidator)
    (statuses : list github.RepoStatus) (runs : list github.CheckRun)
    (jobs : list ghaStatus) :
  answers sv statuses runs →
  listGhaStatuses sv = Ok jobs →
  (∃ legacyJobs runJobs,
     jobs = legacyJobs ++ runJobs
     ∧ Forall2 (λ s g, github.State s = Some (State g)) statuses legacyJobs
     ∧ length runJobs = length runs
     ∧ Forall (λ g, closedState (State g)) runJobs)
  ∧ (Forall (λ s, ∀ state, github.State s = Some state → closedState state)
       statuses →
     Forall (λ g, closedState (State g)) jobs).
Proof.
  intros Hans Hfetch.
  rewrite (listGhaStatuses_Ok _ _ _ _ Hans) in Hfetch.
  destruct Hfetch as (legacyJobs & runJobs & Hlegacy & Hrun & ->).
  assert (Forall (λ g, closedState (State g)) runJobs) as Hclosed.
  { clear Hlegacy Hans.
    induction Hrun as [|run g runs' runJobs Hg _ IH]; [constructor|].
    constructor; [by eapply checkRunEntry_closed|done]. }
  split.
  - exists legacyJobs, runJobs. repeat split; try done.
    + eapply Forall2_impl; [exact Hlegacy|]. simpl. intros s g.
      rewrite combinedEntry_Ok. tauto.
    + symmetry. by eapply Forall2_length.
  - intros Hup. apply Forall_app. split; [|done].
    clear Hrun Hclosed Hans.
    induction Hlegacy as [|s g ss gs Hg _ IH]; [constructor|]. constructor.
    + apply combinedEntry_Ok in Hg as [_ Hg].
      apply Forall_cons in Hup as [Hs _]. by apply Hs.
    + apply IH. by apply Forall_cons in Hup as [_ ?].
Qed.

Lemma C7_witness :
  answers (gatekeeper [legacy "lint" "success"] [completedRun "test" "skipped"])
    [legacy "lint" "success"] [completedRun "test" "skipped"]
  ∧ listGhaStatuses
      (gatekeeper [legacy "lint" "success"] [completedRun "test" "skipped"])
    = Ok [ {| Job := "lint"; State := "success" |};
           {| Job := "test"; State := "error" |} ]
  ∧ Forall (λ g, closedState (State g))
      [ {| Job := "lint"; State := "success" |};
        {| Job := "test"; State := "error" |} ].
Proof.
  assert (answers
            (gatekeeper [legacy "lint" "success"]
               [completedRun "test" "skipped"])
            [legacy "lint" "success"] [completedRun "test" "skipped"]) as Hans.
  { eexists. repeat split. }
  split; [exact Hans|]. split; [reflexivity|].
  apply (C7_states_of_fetched_jobs _ _ _ _ Hans eq_refl).
  constructor; [|constructor]. simpl. intros ? [= <-]. by left.
Defined.

(** ** Normalization of check runs *)

(** The job of a check-run entry sits in the fetched list after the jobs of
    all combined-status entries and of the check runs before it. *)
Lemma listGhaStatuses_lookup_run (sv : statusValidator)
    (statuses : list github.RepoStatus) (pre post : list github.CheckRun)
    (run : github.CheckRun) (jobs : list ghaStatus) :
  answers sv statuses (pre ++ run :: post) →
  listGhaStatuses sv = Ok jobs →
  ∃ g, jobs !! (length statuses + length pre)%nat = Some g
    ∧ checkRunEntry run = Ok g.
Proof.
  intros Hans Hfetch.
  rewrite (listGhaStatuses_Ok _ _ _ _ Hans) in Hfetch.
  destruct Hfetch as (legacyJobs & runJobs & Hlegacy & Hrun & ->).
  apply Forall2_app_inv_l in Hrun as (gpre & grest & Hpre & Hrest & ->).
  apply Forall2_cons_inv_l in Hrest as (g & gpost & Hg & _ & ->).
  exists g. split; [|done].
  rewrite (Forall2_length _ _ _ Hlegacy), (Forall2_length _ _ _ Hpre).
  rewrite lookup_app_r by lia.
  replace (length legacyJobs + length gpre - length legacyJobs)%nat
    with (length gpre) by lia.
  apply list_lookup_middle. done.
Qed.

(** C3. A check-run entry whose name and status are present is normalized
    to state [pending] when its status is not "completed", whatever its
    conclusion; when its status is "completed", conclusion [neutral] or
    [success] gives state [success] and every other conclusion string gives
    state [error]. In a successful fetch the job so produced is the one the
    entry contributes to the list. *)
Theorem C3_check_run_normalization (run : github.CheckRun)
    (name st : string) :
  github.Name run = Some name →
  github.Status run = Some st →
  (st ≠ "completed" →
   checkRunEntry run = Ok {| Job := name; State := pendingState |})
  ∧ (st = "completed" →
     ∀ conclusion, github.Conclusion run = Some conclusion →
       (conclusion = "neutral" ∨ conclusion = "success" →
        checkRunEntry run = Ok {| Job := name; State := successState |})
       ∧ (conclusion ≠ "neutral" → conclusion ≠ "success" →
          checkRunEntry run = Ok {| Job := name; State := errorState |}))
  ∧ (∀ sv statuses pre post jobs,
       answers sv statuses (pre ++ run :: post) →
       listGhaStatuses sv = Ok jobs →
       ∃ g, jobs !! (length statuses + length pre)%nat = Some g
         ∧ checkRunEntry run = Ok g).
Proof.
  intros Hname Hstatus. split; [|split].
  - intros Hst. by apply (checkRunEntry_pending run name st).
  - intros -> conclusion Hconclusion.
    rewrite (checkRunEntry_completed run name conclusion) by done.
    split.
    + intros H. by rewrite decide_True.
    + intros Hn Hs. rewrite decide_False; [done|].
      unfold checkRunNeutralConclusion, checkRunSuccessConclusion. tauto.
  - intros sv statuses pre post jobs. apply listGhaStatuses_lookup_run.
Qed.

Lemma C3_witness :
  checkRunEntry (runningRun "build" "in_progress")
  = Ok {| Job := "build"; State := "pending" |}
  ∧ checkRunEntry (completedRun "docs" "neutral")
    = Ok {| Job := "docs"; State := "success" |}
  ∧ checkRunEntry (completedRun "test" "timed_out")
    = Ok {| Job := "test"; State := "error" |}.
Proof.
  split; [|split].
  - destruct (C3_check_run_normalization (runningRun "build" "in_progress")
                "build" "in_progress" eq_refl eq_refl) as (Hpending & _ & _).
    apply Hpending. discriminate.
  - destruct (C3_check_run_normalization (completedRun "docs" "neutral")
                "docs" "completed" eq_refl eq_refl) as (_ & Hcompleted & _).
    destruct (Hcompleted eq_refl "neutral" eq_refl) as [Hsuccess _].
    apply Hsuccess. by left.
  - destruct (C3_check_run_normalization (completedRun "test" "timed_out")
                "test" "completed" eq_refl eq_refl) as (_ & Hcompleted & _).
    destruct (Hcompleted eq_refl "timed_out" eq_refl) as [_ Herror].
    apply Herror; discriminate.
Defined.

(** ** Malformed entries *)

Lemma Exists_first {A : Type} (P : A → Prop) (l : list A) :
  (∀ x, Decision (P x)) →
  Exists P l →
  ∃ pre x post, l = pre ++ x :: post ∧ Forall (λ y, ¬ P y) pre ∧ P x.
Proof.
  intros Hdec. induction l as [|a l IH]; intros Hex.
  - by apply Exists_nil in Hex.
  - destruct (decide (P a)) as [Ha|Ha].
    + exists [], a, l. repeat split; [constructor|done].
    + apply Exists_cons in Hex as [?|Hex]; [done|].
      destruct (IH Hex) as (pre & x & post & -> & Hpre & Hx).
      exists (a :: pre), x, post. repeat split; [by constructor|done].
Qed.

(** A combined-status entry without context or state aborts the fetch with
    the invalid-combined-status error of the first such entry. *)
Lemma malformed_status_aborts (sv : statusValidator)
    (statuses : list github.RepoStatus) (runs : list github.CheckRun) :
  answers sv statuses runs →
  Exists malformedStatus statuses →
  ∃ s, s ∈ statuses ∧ malformedStatus s
    ∧ listGhaStatuses sv
      = Err (ErrInvalidCombinedStatusResponse
               (github.Context s) (github.State s))
    ∧ Validate sv
      = Err (ErrInvalidCombinedStatusResponse
               (github.Context s) (github.State s)).
Proof.
  intros Hans Hex.
  apply Exists_first in Hex as (pre & s & post & -> & Hpre & Hs); [|apply _].
  assert (listGhaStatuses sv
          = Err (ErrInvalidCombinedStatusResponse
                   (github.Context s) (github.State s))) as Hfetch.
  { rewrite (listGhaStatuses_answers _ _ _ Hans).
    rewrite appendEach_stop.
    - by rewrite combinedEntry_malformed.
    - eapply Forall_impl; [exact Hpre|]. simpl. intros y Hy.
      by destruct (combinedEntry_cases y).
    - intros g. by rewrite combinedEntry_malformed. }
  exists s. split; [|split; [done|split; [done|]]].
  - apply elem_of_app. right. apply list_elem_of_here.
  - unfold Validate. by rewrite Hfetch.
Qed.

(** A check-run entry without name or status aborts the fetch with the
    invalid-check-run error of the first such entry, provided the
    combined-status entries are well formed and no completed check run
    lacks its conclusion. *)
Lemma malformed_run_aborts (sv : statusValidator)
    (statuses : list github.RepoStatus) (runs : list github.CheckRun) :
  answers sv statuses runs →
  Forall (λ s, ¬ malformedStatus s) statuses →
  Forall concluded runs →
  Exists malformedRun runs →
  ∃ run, run ∈ runs ∧ malformedRun run
    ∧ listGhaStatuses sv
      = Err (ErrInvalidCheckRunResponse
               (github.Name run) (github.Status run))
    ∧ Validate sv
      = Err (ErrInvalidCheckRunResponse
               (github.Name run) (github.Status run)).
Proof.
  intros Hans Hstatuses Hruns Hex.
  apply Exists_first in Hex as (pre & run & post & -> & Hpre & Hrun);
    [|apply _].
  assert (listGhaStatuses sv
          = Err (ErrInvalidCheckRunResponse
                   (github.Name run) (github.Status run))) as Hfetch.
  { rewrite (listGhaStatuses_answers _ _ _ Hans).
    destruct (appendEach_total combinedEntry statuses []) as [js ->].
    { eapply Forall_impl; [exact Hstatuses|]. simpl. intros y Hy.
      by destruct (combinedEntry_cases y). }
    simpl. rewrite appendEach_stop.
    - by rewrite checkRunEntry_malformed.
    - apply Forall_app in Hruns as [Hruns _].
      rewrite Forall_forall in Hpre, Hruns. apply Forall_forall.
      intros y Hy. destruct (checkRunEntry_cases y (Hruns y Hy)) as [?|?];
        [done|by destruct (Hpre y Hy)].
    - intros g. by rewrite checkRunEntry_malformed. }
  exists run. split; [|split; [done|split; [done|]]].
  - apply elem_of_app. right. apply list_elem_of_here.
  - unfold Validate. by rewrite Hfetch.
Qed.

(** C4. A fetch in which a check-run entry lacks its name, and which does
    not end in the invalid-check-run error: the first check run is completed
    without a conclusion and the second lacks its name. The [switch] dereferences the nil conclusion of the first before
    the loop reaches the second, so the fetch and [Validate] fault instead of
    returning the invalid-check-run error. With the conclusion present, the
    same entries give that error. *)
Theorem C4_fault_precedes_invalid_check_run :
  malformedRun
    {| github.Name := None; github.Status := Some "queued";
       github.Conclusion := None |}
  ∧ listGhaStatuses
      (gatekeeper []
         [ {| github.Name := Some "build"; github.Status := Some "completed";
              github.Conclusion := None |};
           {| github.Name := None; github.Status := Some "queued";
              github.Conclusion := None |} ])
    = Panic
  ∧ Validate
      (gatekeeper []
         [ {| github.Name := Some "build"; github.Status := Some "completed";
              github.Conclusion := None |};
           {| github.Name := None; github.Status := Some "queued";
              github.Conclusion := None |} ])
    = Panic
  ∧ Validate
      (gatekeeper []
         [ completedRun "build" "success";
           {| github.Name := None; github.Status := Some "queued";
              github.Conclusion := None |} ])
    = Err (ErrInvalidCheckRunResponse None (Some "queued")).
Proof. split; [by left|]. repeat split. Qed.

(** ** The conclusion of a completed check run *)

(** C10. The conclusion of a completed check run is read without a presence
    test. A completed run with a name and no conclusion, reached by the
    loop, makes the loop body, the fetch and [Validate] fault: no
    invalid-check-run error is returned and no job is produced. A completed
    check run that the loop reaches must therefore carry its conclusion, a
    precondition that the code nowhere tests. *)
Theorem C10_completed_run_needs_conclusion (sv : statusValidator)
    (statuses : list github.RepoStatus) (pre post : list github.CheckRun)
    (run : github.CheckRun) (name : string) :
  answers sv statuses (pre ++ run :: post) →
  Forall (λ s, ¬ malformedStatus s) statuses →
  Forall normalizes pre →
  github.Name run = Some name →
  github.Status run = Some "completed" →
  github.Conclusion run = None →
  checkRunEntry run = Panic
  ∧ listGhaStatuses sv = Panic
  ∧ Validate sv = Panic.
Proof.
  intros Hans Hstatuses Hpre Hname Hst Hc.
  pose proof (checkRunEntry_nil_conclusion run name Hname Hst Hc) as Hrun.
  assert (listGhaStatuses sv = Panic) as Hfetch.
  { rewrite (listGhaStatuses_answers _ _ _ Hans).
    destruct (appendEach_total combinedEntry statuses []) as [js ->].
    { eapply Forall_impl; [exact Hstatuses|]. simpl. intros y Hy.
      by destruct (combinedEntry_cases y). }
    simpl. rewrite appendEach_stop; [by rewrite Hrun|exact Hpre|].
    intros g. by rewrite Hrun. }
  split; [done|]. split; [done|]. unfold Validate. by rewrite Hfetch.
Qed.

Lemma C10_witness :
  checkRunEntry
    {| github.Name := Some "build"; github.Status := Some "completed";
       github.Conclusion := None |}
  = Panic
  ∧ listGhaStatuses
      (gatekeeper [legacy "lint" "success"]
         [ completedRun "test" "success";
           {| github.Name := Some "build"; github.Status := Some "completed";
              github.Conclusion := None |} ])
    = Panic
  ∧ Validate
      (gatekeeper [legacy "lint" "success"]
         [ completedRun "test" "success";
           {| github.Name := Some "build"; github.Status := Some "completed";
              github.Conclusion := None |} ])
    = Panic.
Proof.
  apply (C10_completed_run_needs_conclusion
           (gatekeeper [legacy "lint" "success"]
              [ completedRun "test" "success";
                {| github.Name := Some "build";
                   github.Status := Some "completed";
                   github.Conclusion := None |} ])
           [legacy "lint" "success"]
           [completedRun "test" "success"]
           []
           {| github.Name := Some "build";
              github.Status := Some "completed";
              github.Conclusion := None |}
           "build").
  - eexists. repeat split.
  - constructor; [|constructor]. intros [H|H]; discriminate H.
  - constructor; [|constructor]. eexists. reflexivity.
  - reflexivity.
  - reflexivity.
  - reflexivity.
Defined.

(** ** Construction *)

Lemma length_zero_empty (s : string) : String.length s = 0 ↔ s = "".
Proof. destruct s; simpl; split; done. Qed.

(** [validateFields] collects one error per violated condition, and returns
    them as one error unless there is none. *)
Lemma validateFields_spec (sv : statusValidator) :
  ∃ errs, length errs = violations sv
    ∧ validateFields sv
      = if decide (violations sv = 0) then None else Some (Errors errs).
Proof.
  destruct sv as [[|? ?] [|? ?] [|? ?] [|? ?] [c|]];
    first [ by exists [] | eexists; (split; [|reflexivity]); reflexivity ].
Qed.

Lemma wellConfigured_violations (sv : statusValidator) :
  wellConfigured sv ↔ violations sv = 0.
Proof.
  unfold wellConfigured, violations.
  repeat case_decide; simpl; split; try lia; try tauto.
Qed.

Lemma CreateValidator_configured (c : option github.Client)
    (opts : list Option) :
  CreateValidator c opts
  = match validateFields (configured c opts) with
    | Some err => Err err
    | None => Ok (configured c opts)
    end.
Proof. reflexivity. Qed.

(** C5. Whatever the options, [CreateValidator] returns a validator exactly
    when the configured fields satisfy all five conditions (repo, owner, ref
    and self job name non-empty, client non-nil), and the validator returned
    is the configured one; when some condition is violated it returns no
    validator and one aggregated error that holds as many errors as there
    are violated conditions. *)
Theorem C5_CreateValidator_checks_all_fields (c : option github.Client)
    (opts : list Option) :
  ((∃ sv, CreateValidator c opts = Ok sv)
   ↔ wellConfigured (configured c opts))
  ∧ (wellConfigured (configured c opts) →
     CreateValidator c opts = Ok (configured c opts))
  ∧ (¬ wellConfigured (configured c opts) →
     ∃ errs, CreateValidator c opts = Err (Errors errs)
       ∧ length errs = violations (configured c opts)
       ∧ (0 < violations (configured c opts))%nat).
Proof.
  rewrite CreateValidator_configured, wellConfigured_violations.
  destruct (validateFields_spec (configured c opts)) as (errs & Hlen & ->).
  case_decide as Hzero.
  - split; [split; eauto|]. split; [done|]. intros H. by destruct H.
  - split; [split; [by intros [sv Hsv]|done]|]. split; [done|].
    intros _. exists errs. split; [done|]. split; [done|lia].
Qed.

Lemma C5_witness :
  CreateValidator
    (Some (fixedClient [] []))
    [ (λ sv, {| repo := "merge-gatekeeper"; owner := owner sv; ref := ref sv;
                selfJobName := selfJobName sv; client := client sv |});
      (λ sv, {| repo := repo sv; owner := "upsidr"; ref := ref sv;
                selfJobName := selfJobName sv; client := client sv |});
      (λ sv, {| repo := repo sv; owner := owner sv; ref := "main";
                selfJobName := selfJobName sv; client := client sv |});
      (λ sv, {| repo := repo sv; owner := owner sv; ref := ref sv;
                selfJobName := "gatekeeper"; client := client sv |}) ]
  = Ok (gatekeeper [] [])
  ∧ ∃ errs,
      CreateValidator None
        [ (λ sv, {| repo := repo sv; owner := "upsidr"; ref := ref sv;
                    selfJobName := selfJobName sv; client := client sv |}) ]
      = Err (Errors errs)
      ∧ length errs = 4.
Proof.
  split.
  - apply (C5_CreateValidator_checks_all_fields
             (Some (fixedClient [] []))
             [ (λ sv, {| repo := "merge-gatekeeper"; owner := owner sv;
                         ref := ref sv; selfJobName := selfJobName sv;
                         client := client sv |});
               (λ sv, {| repo := repo sv; owner := "upsidr"; ref := ref sv;
                         selfJobName := selfJobName sv;
                         client := client sv |});
               (λ sv, {| repo := repo sv; owner := owner sv; ref := "main";
                         selfJobName := selfJobName sv;
                         client := client sv |});
               (λ sv, {| repo := repo sv; owner := owner sv; ref := ref sv;
                         selfJobName := "gatekeeper";
                         client := client sv |}) ]).
    repeat split; discriminate.
  - destruct (C5_CreateValidator_checks_all_fields None
                [ (λ sv, {| repo := repo sv; owner := "upsidr"; ref := ref sv;
                            selfJobName := selfJobName sv;
                            client := client sv |}) ])
      as (_ & _ & Herr).
    destruct Herr as (errs & Hcreate & Hlen & _).
    + intros (Hrepo & _). by apply Hrepo.
    + exists errs. split; [exact Hcreate|exact Hlen].
Defined.

(** ** Further properties of the decision *)

Section DecisionFacts.
Variable self : string.

Lemma successfulJobs_length_le (jobs : list ghaStatus) :
  (length (successfulJobs self jobs) ≤ length (requiredJobs self jobs))%nat.
Proof. apply sublist_length, successfulJobs_sublist. Qed.

Lemma requiredJobs_cons (g : ghaStatus) (jobs : list ghaStatus) :
  requiredJobs self (g :: jobs)
  = if decide (Job g = self) then requiredJobs self jobs
    else Job g :: requiredJobs self jobs.
Proof.
  unfold requiredJobs. rewrite filter_cons.
  repeat case_decide; try tauto; done.
Qed.

Lemma successfulJobs_cons (g : ghaStatus) (jobs : list ghaStatus) :
  successfulJobs self (g :: jobs)
  = if decide (Job g = self) then successfulJobs self jobs
    else if decide (State g = successState)
         then Job g :: successfulJobs self jobs
         else successfulJobs self jobs.
Proof.
  unfold successfulJobs. rewrite filter_cons.
  repeat case_decide; try tauto; done.
Qed.

(** The tally and the two lists count the same jobs. *)
Lemma tally_split (jobs : list ghaStatus) :
  (tally self jobs + length (requiredJobs self jobs)
   = length jobs + length (successfulJobs self jobs))%nat.
Proof.
  induction jobs as [|g jobs IH]; [done|].
  rewrite tally_cons, requiredJobs_cons, successfulJobs_cons.
  repeat case_decide; simpl; try lia; tauto.
Qed.

Lemma successful_all_required (jobs : list ghaStatus) :
  length (successfulJobs self jobs) = length (requiredJobs self jobs) →
  successfulJobs self jobs = requiredJobs self jobs.
Proof.
  induction jobs as [|g jobs IH]; [done|].
  rewrite requiredJobs_cons, successfulJobs_cons.
  pose proof (successfulJobs_length_le jobs).
  repeat case_decide; simpl; intros Hlen.
  - by apply IH.
  - f_equal. apply IH. lia.
  - lia.
Qed.

End DecisionFacts.

(** X1. The flag can be read off the two lists: [succeeded] is true exactly
    when [completeJobs] and [totalJobs] are the same list, and exactly when
    they have the same length. *)
Theorem succeeded_iff_complete_is_total (sv : statusValidator)
    (jobs : list ghaStatus) :
  listGhaStatuses sv = Ok jobs →
  ∃ st, Validate sv = Ok st
    ∧ ((succeeded st = true) ↔ (completeJobs st = totalJobs st))
    ∧ ((succeeded st = true)
       ↔ (length (completeJobs st) = length (totalJobs st))).
Proof.
  intros Hfetch. eexists. split; [by apply Validate_Ok|].
  rewrite validateJobs_spec. simpl. rewrite bool_decide_eq_true.
  pose proof (tally_split (selfJobName sv) jobs) as Hsplit.
  split; split.
  - intros Htally. apply successful_all_required. lia.
  - intros Heq. rewrite Heq in Hsplit. lia.
  - lia.
  - lia.
Qed.

Lemma succeeded_iff_complete_is_total_witness :
  ∃ st,
    Validate
      (gatekeeper [legacy "lint" "success"; legacy "gatekeeper" "error"]
         [completedRun "test" "neutral"])
    = Ok st
    ∧ ((succeeded st = true) ↔ (completeJobs st = totalJobs st))
    ∧ ((succeeded st = true)
       ↔ (length (completeJobs st) = length (totalJobs st))).
Proof.
  apply (succeeded_iff_complete_is_total
           (gatekeeper [legacy "lint" "success"; legacy "gatekeeper" "error"]
              [completedRun "test" "neutral"])
           [ {| Job := "lint"; State := "success" |};
             {| Job := "gatekeeper"; State := "error" |};
             {| Job := "test"; State := "success" |} ]).
  reflexivity.
Defined.

(** X2. The decision composes over concatenation: the lists of a
    concatenated fetch are the concatenated lists, and the fetch succeeds
    exactly when both parts do. *)
Theorem validateJobs_app (self : string) (jobs1 jobs2 : list ghaStatus) :
  totalJobs (validateJobs self (jobs1 ++ jobs2))
  = totalJobs (validateJobs self jobs1) ++ totalJobs (validateJobs self jobs2)
  ∧ completeJobs (validateJobs self (jobs1 ++ jobs2))
    = completeJobs (validateJobs self jobs1)
      ++ completeJobs (validateJobs self jobs2)
  ∧ succeeded (validateJobs self (jobs1 ++ jobs2))
    = succeeded (validateJobs self jobs1)
      && succeeded (validateJobs self jobs2).
Proof.
  rewrite !validateJobs_spec. simpl.
  rewrite requiredJobs_app, successfulJobs_app. split; [done|split; [done|]].
  rewrite tally_app, length_app.
  pose proof (tally_le_length self jobs1).
  pose proof (tally_le_length self jobs2).
  repeat case_bool_decide; simpl; try done; lia.
Qed.

(** X3. The order of the fetched jobs does not affect the decision: a
    permutation of the jobs gives the same [succeeded] flag, and permutations
    of [totalJobs] and [completeJobs]. *)
Theorem validateJobs_Permutation (self : string)
    (jobs1 jobs2 : list ghaStatus) :
  jobs1 ≡ₚ jobs2 →
  succeeded (validateJobs self jobs1) = succeeded (validateJobs self jobs2)
  ∧ totalJobs (validateJobs self jobs1) ≡ₚ totalJobs (validateJobs self jobs2)
  ∧ completeJobs (validateJobs self jobs1)
    ≡ₚ completeJobs (validateJobs self jobs2).
Proof.
  intros Hperm. rewrite !validateJobs_spec. simpl. split; [|split].
  - apply bool_decide_ext. unfold tally.
    rewrite (Permutation_length Hperm).
    rewrite (Permutation_length
               (filter_Permutation (λ g, Job g = self) _ _ Hperm)).
    rewrite (Permutation_length
               (filter_Permutation
                  (λ g, Job g ≠ self ∧ State g = successState) _ _ Hperm)).
    done.
  - unfold requiredJobs. apply fmap_Permutation.
    by apply filter_Permutation.
  - unfold successfulJobs. apply fmap_Permutation.
    by apply filter_Permutation.
Qed.

Lemma validateJobs_Permutation_witness :
  succeeded
    (validateJobs "gatekeeper"
       [ {| Job := "lint"; State := "success" |};
         {| Job := "test"; State := "pending" |} ])
  = succeeded
      (validateJobs "gatekeeper"
         [ {| Job := "test"; State := "pending" |};
           {| Job := "lint"; State := "success" |} ]).
Proof.
  apply (validateJobs_Permutation "gatekeeper"
           [ {| Job := "lint"; State := "success" |};
             {| Job := "test"; State := "pending" |} ]
           [ {| Job := "test"; State := "pending" |};
             {| Job := "lint"; State := "success" |} ]).
  apply perm_swap.
Defined.

Lemma occurrences_successful_count (self n : string)
    (jobs : list ghaStatus) :
  n ≠ self →
  occurrences n (successfulJobs self jobs)
  = length (filter (λ g, State g = successState)
              (filter (λ g, Job g = n) jobs)).
Proof.
  intros Hn. unfold occurrences.
  induction jobs as [|g jobs IH]; [done|].
  rewrite successfulJobs_cons, (filter_cons (λ g, Job g = n)).
  destruct (decide (Job g = self)) as [Hself|Hself].
  - rewrite decide_False by congruence. done.
  - destruct (decide (State g = successState)) as [Hst|Hst];
      destruct (decide (Job g = n)) as [Hg|Hg];
      rewrite ?filter_cons, ?decide_True, ?decide_False by done;
      simpl; by rewrite ?IH.
Qed.

(** X4. One job other than the validator's own whose state is not
    [success] is enough to fail the whole result: [succeeded] is false, the
    job's name is in [totalJobs], and [completeJobs] holds that name fewer
    times than [totalJobs] does. *)
Theorem unsuccessful_job_blocks (sv : statusValidator)
    (jobs : list ghaStatus) (g : ghaStatus) :
  listGhaStatuses sv = Ok jobs →
  g ∈ jobs → Job g ≠ selfJobName sv → State g ≠ successState →
  ∃ st, Validate sv = Ok st
    ∧ succeeded st = false
    ∧ (Job g ∈ totalJobs st)
    ∧ (occurrences (Job g) (completeJobs st)
       < occurrences (Job g) (totalJobs st))%nat.
Proof.
  intros Hfetch Hin Hself Hst. eexists. split; [by apply Validate_Ok|].
  rewrite validateJobs_spec. simpl. split; [|split].
  - apply bool_decide_eq_false. rewrite tally_full, Forall_forall.
    intros Hall. destruct (Hall g Hin); done.
  - unfold requiredJobs. apply list_elem_of_fmap. exists g.
    split; [done|]. by apply list_elem_of_filter.
  - rewrite occurrences_required, occurrences_successful_count by done.
    apply (length_filter_lt _ _ g); [|done].
    by apply list_elem_of_filter.
Qed.

Lemma unsuccessful_job_blocks_witness :
  ∃ st,
    Validate
      (gatekeeper [legacy "lint" "success"; legacy "test" "failure"]
         [completedRun "test" "success"])
    = Ok st
    ∧ succeeded st = false
    ∧ ("test" ∈ totalJobs st)
    ∧ (occurrences "test" (completeJobs st)
       < occurrences "test" (totalJobs st))%nat.
Proof.
  apply (unsuccessful_job_blocks
           (gatekeeper [legacy "lint" "success"; legacy "test" "failure"]
              [completedRun "test" "success"])
           [ {| Job := "lint"; State := "success" |};
             {| Job := "test"; State := "failure" |};
             {| Job := "test"; State := "success" |} ]
           {| Job := "test"; State := "failure" |}).
  - reflexivity.
  - apply list_elem_of_further, list_elem_of_here.
  - discriminate.
  - discriminate.
Defined.

(** X5. The decision looks at a state only to compare it with [success]:
    two fetched lists with the same names, position by position, and the
    same positions in state [success] give the same result, so [error],
    [pending] and any other upstream string are not told apart. *)
Theorem validateJobs_only_tests_success (self : string)
    (jobs1 jobs2 : list ghaStatus) :
  Forall2
    (λ g h, Job g = Job h
            ∧ (State g = successState ↔ State h = successState))
    jobs1 jobs2 →
  validateJobs self jobs1 = validateJobs self jobs2.
Proof.
  intros Hsame. rewrite !validateJobs_spec.
  assert (requiredJobs self jobs1 = requiredJobs self jobs2
          ∧ successfulJobs self jobs1 = successfulJobs self jobs2
          ∧ tally self jobs1 = tally self jobs2
          ∧ length jobs1 = length jobs2) as (-> & -> & -> & ->); [|done].
  induction Hsame as [|g h jobs1 jobs2 [Hjob Hst] _ (IH1 & IH2 & IH3 & IH4)];
    [done|].
  rewrite !requiredJobs_cons, !successfulJobs_cons, !tally_cons.
  rewrite IH1, IH2, IH3, Hjob. simpl. rewrite IH4.
  repeat case_decide; try tauto; done.
Qed.

Lemma validateJobs_only_tests_success_witness :
  validateJobs "gatekeeper"
    [ {| Job := "lint"; State := "success" |};
      {| Job := "test"; State := "pending" |} ]
  = validateJobs "gatekeeper"
      [ {| Job := "lint"; State := "success" |};
        {| Job := "test"; State := "failure" |} ].
Proof.
  apply (validateJobs_only_tests_success "gatekeeper").
  constructor; [split; [reflexivity|tauto]|].
  constructor; [|constructor].
  split; [reflexivity|]. split; discriminate.
Defined.

(** ** Further properties of the fetch *)

Lemma requiredJobs_length (self : string) (jobs : list ghaStatus) :
  (length (requiredJobs self jobs)
   + length (filter (λ g, Job g = self) jobs) = length jobs)%nat.
Proof.
  induction jobs as [|g jobs IH]; [done|].
  rewrite requiredJobs_cons, filter_cons.
  case_decide; simpl; lia.
Qed.

(** X6. Nothing is dropped or merged on the way: a successful fetch has one
    job per upstream entry, [totalJobs] has one name per fetched job that is
    not the validator's own, and [completeJobs] is no longer than
    [totalJobs]. *)
Theorem one_job_per_entry (sv : statusValidator)
    (statuses : list github.RepoStatus) (runs : list github.CheckRun)
    (jobs : list ghaStatus) :
  answers sv statuses runs →
  listGhaStatuses sv = Ok jobs →
  ∃ st, Validate sv = Ok st
    ∧ length jobs = (length statuses + length runs)%nat
    ∧ (length (totalJobs st)
       + length (filter (λ g, Job g = selfJobName sv) jobs)
       = length jobs)%nat
    ∧ (length (completeJobs st) ≤ length (totalJobs st))%nat.
Proof.
  intros Hans Hfetch. eexists. split; [by apply Validate_Ok|].
  rewrite validateJobs_spec. simpl.
  split; [|split;
           [apply requiredJobs_length|apply successfulJobs_length_le]].
  rewrite (listGhaStatuses_Ok _ _ _ _ Hans) in Hfetch.
  destruct Hfetch as (legacyJobs & runJobs & Hlegacy & Hrun & ->).
  rewrite length_app.
  by rewrite (Forall2_length _ _ _ Hlegacy), (Forall2_length _ _ _ Hrun).
Qed.

Lemma one_job_per_entry_witness :
  ∃ st,
    Validate
      (gatekeeper [legacy "lint" "success"; legacy "gatekeeper" "pending"]
         [completedRun "test" "failure"])
    = Ok st
    ∧ length
        [ {| Job := "lint"; State := "success" |};
          {| Job := "gatekeeper"; State := "pending" |};
          {| Job := "test"; State := "error" |} ]
      = (length [legacy "lint" "success"; legacy "gatekeeper" "pending"]
         + length [completedRun "test" "failure"])%nat
    ∧ (length (totalJobs st)
       + length
           (filter (λ g, Job g = "gatekeeper")
              [ {| Job := "lint"; State := "success" |};
                {| Job := "gatekeeper"; State := "pending" |};
                {| Job := "test"; State := "error" |} ])
       = 3)%nat
    ∧ (length (completeJobs st) ≤ length (totalJobs st))%nat.
Proof.
  apply (one_job_per_entry
           (gatekeeper
              [legacy "lint" "success"; legacy "gatekeeper" "pending"]
              [completedRun "test" "failure"])).
  - eexists. repeat split.
  - reflexivity.
Defined.

Lemma Forall2_exists_l {A B : Type} (R : A → B → Prop) (l : list A)
    (k : list B) (y : B) :
  Forall2 R l k → y ∈ k → ∃ x, x ∈ l ∧ R x y.
Proof.
  intros HR. induction HR as [|x y' l k Hxy _ IH]; intros Hy.
  - by apply elem_of_nil in Hy.
  - apply elem_of_cons in Hy as [->|Hy].
    + exists x. split; [apply list_elem_of_here|done].
    + destruct (IH Hy) as (x' & Hx' & HR'). exists x'.
      split; [by apply list_elem_of_further|done].
Qed.

Lemma Forall2_exists_r {A B : Type} (R : A → B → Prop) (l : list A)
    (k : list B) (x : A) :
  Forall2 R l k → x ∈ l → ∃ y, y ∈ k ∧ R x y.
Proof.
  intros HR. induction HR as [|x' y l k Hxy _ IH]; intros Hx.
  - by apply elem_of_nil in Hx.
  - apply elem_of_cons in Hx as [->|Hx].
    + exists y. split; [apply list_elem_of_here|done].
    + destruct (IH Hx) as (y' & Hy' & HR'). exists y'.
      split; [by apply list_elem_of_further|done].
Qed.

(** X7. [totalJobs] holds exactly the upstream names other than the self
    job name: a name is in it if and only if it differs from the self job
    name and is the context of a combined-status entry or the name of a
    check run. *)
Theorem totalJobs_are_the_upstream_names (sv : statusValidator)
    (statuses : list github.RepoStatus) (runs : list github.CheckRun)
    (st : status) (n : string) :
  answers sv statuses runs →
  Validate sv = Ok st →
  n ∈ totalJobs st
  ↔ n ≠ selfJobName sv
    ∧ ((∃ s, s ∈ statuses ∧ github.Context s = Some n)
       ∨ (∃ run, run ∈ runs ∧ github.Name run = Some n)).
Proof.
  intros Hans (jobs & Hfetch & ->)%Validate_Ok_inv.
  rewrite validateJobs_spec. simpl.
  rewrite (listGhaStatuses_Ok _ _ _ _ Hans) in Hfetch.
  destruct Hfetch as (legacyJobs & runJobs & Hlegacy & Hrun & ->).
  unfold requiredJobs. rewrite list_elem_of_fmap. split.
  - intros (g & -> & [Hself Hg]%list_elem_of_filter). split; [done|].
    apply elem_of_app in Hg as [Hg|Hg].
    + left. destruct (Forall2_exists_l _ _ _ _ Hlegacy Hg) as (s & Hs & HR).
      exists s. split; [done|]. by apply combinedEntry_Ok in HR as [? _].
    + right. destruct (Forall2_exists_l _ _ _ _ Hrun Hg) as (run & Hr & HR).
      exists run. split; [done|]. by apply checkRunEntry_Job.
  - intros (Hself & [(s & Hs & Hctx)|(run & Hr & Hname)]).
    + destruct (Forall2_exists_r _ _ _ _ Hlegacy Hs) as (g & Hg & HR).
      apply combinedEntry_Ok in HR as [HJ _].
      assert (Job g = n) as <- by congruence.
      exists g. split; [done|]. apply list_elem_of_filter.
      split; [done|]. apply elem_of_app. by left.
    + destruct (Forall2_exists_r _ _ _ _ Hrun Hr) as (g & Hg & HR).
      apply checkRunEntry_Job in HR.
      assert (Job g = n) as <- by congruence.
      exists g. split; [done|]. apply list_elem_of_filter.
      split; [done|]. apply elem_of_app. by right.
Qed.

Lemma totalJobs_are_the_upstream_names_witness :
  "test" ∈ totalJobs
             {| totalJobs := ["lint"; "test"]; completeJobs := ["lint"];
                succeeded := false |}
  ↔ "test" ≠ "gatekeeper"
    ∧ ((∃ s, s ∈ [legacy "lint" "success"; legacy "gatekeeper" "pending"]
             ∧ github.Context s = Some "test")
       ∨ (∃ run, run ∈ [runningRun "test" "queued"]
                 ∧ github.Name run = Some "test")).
Proof.
  apply (totalJobs_are_the_upstream_names
           (gatekeeper
              [legacy "lint" "success"; legacy "gatekeeper" "pending"]
              [runningRun "test" "queued"])).
  - eexists. repeat split.
  - reflexivity.
Defined.

(** ** Errors of the fetch *)

Lemma combinedEntry_Err (s : github.RepoStatus) (e : error) :
  combinedEntry s = Err e →
  malformedStatus s
  ∧ e = ErrInvalidCombinedStatusResponse (github.Context s) (github.State s).
Proof.
  unfold combinedEntry, malformedStatus.
  destruct s as [[c|] [st|]]; simpl; intros [= <-]; auto.
Qed.

Lemma checkRunEntry_Err (run : github.CheckRun) (e : error) :
  checkRunEntry run = Err e →
  malformedRun run
  ∧ e = ErrInvalidCheckRunResponse (github.Name run) (github.Status run).
Proof.
  unfold checkRunEntry, malformedRun.
  destruct run as [[n|] [st|] [c|]]; simpl; repeat case_decide;
    intros [= <-]; auto.
Qed.

Lemma checkRunEntry_Panic (run : github.CheckRun) :
  checkRunEntry run = Panic
  ↔ github.Name run ≠ None
    ∧ github.Status run = Some checkRunCompletedStatus
    ∧ github.Conclusion run = None.
Proof.
  unfold checkRunEntry.
  destruct run as [[n|] [st|] [c|]]; simpl; repeat case_decide;
    split; try done; try (by intros (? & ? & ?)).
  - intros (_ & [= ->] & _). done.
  - intros _. split; [done|]. split; [|done]. f_equal.
    destruct (decide (st = checkRunCompletedStatus)); [done|tauto].
Qed.

Lemma well_formed_statuses (statuses : list github.RepoStatus) :
  Forall (λ s, ¬ malformedStatus s) statuses →
  ∃ legacyJobs, appendEach combinedEntry statuses [] = Ok legacyJobs.
Proof.
  intros Hall. apply appendEach_total.
  eapply Forall_impl; [exact Hall|]. simpl. intros s Hs.
  by destruct (combinedEntry_cases s).
Qed.

(** X8. The first combined-status entry without context or state decides
    the call: [Validate] returns the invalid-combined-status error carrying
    the two pointers of that entry, whatever comes after it and whatever the
    client answers to the check-run request. *)
Theorem first_malformed_status_decides (sv : statusValidator)
    (c : github.Client) (pre post : list github.RepoStatus)
    (s : github.RepoStatus) :
  client sv = Some c →
  github.GetCombinedStatus c (owner sv) (repo sv) (ref sv)
  = inr {| github.Statuses := pre ++ s :: post |} →
  Forall (λ s', ¬ malformedStatus s') pre →
  malformedStatus s →
  Validate sv
  = Err (ErrInvalidCombinedStatusResponse
           (github.Context s) (github.State s)).
Proof.
  intros Hclient Hcombined Hpre Hs.
  unfold Validate, listGhaStatuses. rewrite Hclient, Hcombined. simpl.
  rewrite appendEach_stop.
  - by rewrite combinedEntry_malformed.
  - eapply Forall_impl; [exact Hpre|]. simpl. intros y Hy.
    by destruct (combinedEntry_cases y).
  - intros g. by rewrite combinedEntry_malformed.
Qed.

(** X9. The first check run without name or status decides the call, once
    the combined-status entries are well formed and the check runs before it
    yield jobs: [Validate] returns the invalid-check-run error carrying the
    two pointers of that run, whatever the later runs are. *)
Theorem first_malformed_run_decides (sv : statusValidator)
    (statuses : list github.RepoStatus) (pre post : list github.CheckRun)
    (run : github.CheckRun) :
  answers sv statuses (pre ++ run :: post) →
  Forall (λ s, ¬ malformedStatus s) statuses →
  Forall normalizes pre →
  malformedRun run →
  Validate sv
  = Err (ErrInvalidCheckRunResponse (github.Name run) (github.Status run)).
Proof.
  intros Hans Hstatuses Hpre Hrun.
  unfold Validate. rewrite (listGhaStatuses_answers _ _ _ Hans).
  destruct (well_formed_statuses statuses Hstatuses) as [js ->]. simpl.
  rewrite appendEach_stop.
  - by rewrite checkRunEntry_malformed.
  - exact Hpre.
  - intros g. by rewrite checkRunEntry_malformed.
Qed.

(** X10. An error of either client call is returned unchanged: the error of
    the combined-status request at once, the error of the check-run request
    when the combined-status entries are well formed. *)
Theorem client_errors_are_returned (sv : statusValidator)
    (c : github.Client) (e : error) :
  client sv = Some c →
  (github.GetCombinedStatus c (owner sv) (repo sv) (ref sv) = inl e →
   Validate sv = Err e)
  ∧ (∀ statuses,
       github.GetCombinedStatus c (owner sv) (repo sv) (ref sv)
       = inr {| github.Statuses := statuses |} →
       Forall (λ s, ¬ malformedStatus s) statuses →
       github.ListCheckRunsForRef c (owner sv) (repo sv) (ref sv) = inl e →
       Validate sv = Err e).
Proof.
  intros Hclient. unfold Validate, listGhaStatuses. rewrite Hclient. split.
  - by intros ->.
  - intros statuses -> Hstatuses ->. simpl.
    by destruct (well_formed_statuses statuses Hstatuses) as [js ->].
Qed.

(** X11. [Validate] makes up no error: an error it returns was returned by
    one of the two client calls, or is the invalid-combined-status error of
    a combined-status entry that lacks a field, or the invalid-check-run
    error of a check run that lacks a field. *)
Theorem Validate_errors_have_a_cause (sv : statusValidator) (e : error) :
  Validate sv = Err e →
  ∃ c, client sv = Some c
    ∧ (github.GetCombinedStatus c (owner sv) (repo sv) (ref sv) = inl e
       ∨ github.ListCheckRunsForRef c (owner sv) (repo sv) (ref sv) = inl e
       ∨ (∃ combined s,
            github.GetCombinedStatus c (owner sv) (repo sv) (ref sv)
            = inr combined
            ∧ s ∈ github.Statuses combined ∧ malformedStatus s
            ∧ e = ErrInvalidCombinedStatusResponse
                    (github.Context s) (github.State s))
       ∨ (∃ runResult run,
            github.ListCheckRunsForRef c (owner sv) (repo sv) (ref sv)
            = inr runResult
            ∧ run ∈ github.CheckRuns runResult ∧ malformedRun run
            ∧ e = ErrInvalidCheckRunResponse
                    (github.Name run) (github.Status run))).
Proof.
  unfold Validate. destruct (listGhaStatuses sv) as [jobs|e'|] eqn:Hfetch;
    simpl; [done| |done].
  intros [= ->]. revert Hfetch. unfold listGhaStatuses.
  destruct (client sv) as [c|]; [|done]. intros Hfetch.
  exists c. split; [done|].
  destruct (github.GetCombinedStatus c _ _ _) as [e'|combined] eqn:Hcombined;
    simpl in Hfetch.
  { left. congruence. }
  destruct (first_failure combinedEntry (github.Statuses combined))
    as [Hall|(pre & s & post & Hsplit & Hpre & Hs)].
  - destruct (appendEach_total combinedEntry _ [] Hall) as [js Hjs].
    rewrite Hjs in Hfetch. simpl in Hfetch.
    destruct (github.ListCheckRunsForRef c _ _ _) as [e'|runResult] eqn:Hruns;
      simpl in Hfetch.
    { right. left. congruence. }
    right. right. right. exists runResult.
    destruct (first_failure checkRunEntry (github.CheckRuns runResult))
      as [Hok|(rpre & run & rpost & Hrsplit & Hrpre & Hrun)].
    + destruct (appendEach_total checkRunEntry _ js Hok) as [r Hr].
      congruence.
    + rewrite Hrsplit, appendEach_stop in Hfetch by done.
      destruct (checkRunEntry run) as [g|e'|] eqn:Hentry; [done| |done].
      apply checkRunEntry_Err in Hentry as [Hm ->]. simpl in Hfetch.
      exists run. split; [done|]. split.
      * rewrite Hrsplit. apply elem_of_app. right. apply list_elem_of_here.
      * split; [done|congruence].
  - rewrite Hsplit, appendEach_stop in Hfetch by done. simpl in Hfetch.
    destruct (combinedEntry s) as [g|e'|] eqn:Hentry; [done| |done].
    apply combinedEntry_Err in Hentry as [Hm ->]. simpl in Hfetch.
    right. right. left. exists combined, s. split; [done|]. split.
    + rewrite Hsplit. apply elem_of_app. right. apply list_elem_of_here.
    + split; [done|congruence].
Qed.

Lemma first_malformed_status_decides_witness :
  Validate
    (gatekeeperWith
       (legacyOnlyClient
          [ legacy "lint" "success";
            {| github.Context := Some "test"; github.State := None |};
            {| github.Context := None; github.State := None |} ]
          (ErrClient "rate limit")))
  = Err (ErrInvalidCombinedStatusResponse (Some "test") None).
Proof.
  apply (first_malformed_status_decides
           (gatekeeperWith
              (legacyOnlyClient
                 [ legacy "lint" "success";
                   {| github.Context := Some "test"; github.State := None |};
                   {| github.Context := None; github.State := None |} ]
                 (ErrClient "rate limit")))
           (legacyOnlyClient
              [ legacy "lint" "success";
                {| github.Context := Some "test"; github.State := None |};
                {| github.Context := None; github.State := None |} ]
              (ErrClient "rate limit"))
           [legacy "lint" "success"]
           [{| github.Context := None; github.State := None |}]
           {| github.Context := Some "test"; github.State := None |}).
  - reflexivity.
  - reflexivity.
  - constructor; [|constructor]. intros [H|H]; discriminate H.
  - by right.
Defined.

Lemma first_malformed_run_decides_witness :
  Validate
    (gatekeeper [legacy "lint" "success"]
       [ completedRun "test" "success";
         {| github.Name := Some "build"; github.Status := None;
            github.Conclusion := None |};
         {| github.Name := Some "docs"; github.Status := Some "completed";
            github.Conclusion := None |} ])
  = Err (ErrInvalidCheckRunResponse (Some "build") None).
Proof.
  apply (first_malformed_run_decides
           (gatekeeper [legacy "lint" "success"]
              [ completedRun "test" "success";
                {| github.Name := Some "build"; github.Status := None;
                   github.Conclusion := None |};
                {| github.Name := Some "docs";
                   github.Status := Some "completed";
                   github.Conclusion := None |} ])
           [legacy "lint" "success"]
           [completedRun "test" "success"]
           [{| github.Name := Some "docs"; github.Status := Some "completed";
               github.Conclusion := None |}]
           {| github.Name := Some "build"; github.Status := None;
              github.Conclusion := None |}).
  - eexists. repeat split.
  - constructor; [|constructor]. intros [H|H]; discriminate H.
  - constructor; [|constructor]. eexists. reflexivity.
  - by right.
Defined.

Lemma client_errors_are_returned_witness :
  Validate (gatekeeperWith (offlineClient (ErrClient "timeout") []))
  = Err (ErrClient "timeout")
  ∧ Validate
      (gatekeeperWith
         (legacyOnlyClient [legacy "lint" "success"] (ErrClient "timeout")))
    = Err (ErrClient "timeout").
Proof.
  split.
  - apply (client_errors_are_returned
             (gatekeeperWith (offlineClient (ErrClient "timeout") []))
             (offlineClient (ErrClient "timeout") [])
             (ErrClient "timeout") eq_refl).
    reflexivity.
  - destruct (client_errors_are_returned
                (gatekeeperWith
                   (legacyOnlyClient [legacy "lint" "success"]
                      (ErrClient "timeout")))
                (legacyOnlyClient [legacy "lint" "success"]
                   (ErrClient "timeout"))
                (ErrClient "timeout") eq_refl) as [_ Hruns].
    apply (Hruns [legacy "lint" "success"]).
    + reflexivity.
    + constructor; [|constructor]. intros [H|H]; discriminate H.
    + reflexivity.
Defined.

Lemma Validate_errors_have_a_cause_witness :
  ∃ c,
    client
      (gatekeeperWith
         (legacyOnlyClient [legacy "lint" "success"] (ErrClient "timeout")))
    = Some c
    ∧ (github.GetCombinedStatus c "upsidr" "merge-gatekeeper" "main"
       = inl (ErrClient "timeout")
       ∨ github.ListCheckRunsForRef c "upsidr" "merge-gatekeeper" "main"
         = inl (ErrClient "timeout")
       ∨ (∃ combined s,
            github.GetCombinedStatus c "upsidr" "merge-gatekeeper" "main"
            = inr combined
            ∧ s ∈ github.Statuses combined ∧ malformedStatus s
            ∧ ErrClient "timeout"
              = ErrInvalidCombinedStatusResponse
                  (github.Context s) (github.State s))
       ∨ (∃ runResult run,
            github.ListCheckRunsForRef c "upsidr" "merge-gatekeeper" "main"
            = inr runResult
            ∧ run ∈ github.CheckRuns runResult ∧ malformedRun run
            ∧ ErrClient "timeout"
              = ErrInvalidCheckRunResponse
                  (github.Name run) (github.Status run))).
Proof.
  apply (Validate_errors_have_a_cause
           (gatekeeperWith
              (legacyOnlyClient [legacy "lint" "success"]
                 (ErrClient "timeout")))
           (ErrClient "timeout")).
  reflexivity.
Defined.

(** ** Further properties of the construction *)

Ltac in_list :=
  repeat first [apply list_elem_of_here | apply list_elem_of_further].

Ltac not_in_list H :=
  repeat (apply elem_of_cons in H as [H|H]; [discriminate H|]);
  by apply elem_of_nil in H.

Ltac in_order :=
  repeat first [apply sublist_skip | apply sublist_cons]; apply sublist_nil.

(** What [validateFields] returns: nothing for a well-configured validator;
    otherwise the errors of the violated conditions, each once, in the order
    of the source. *)
Lemma validateFields_messages (sv : statusValidator) :
  match validateFields sv with
  | None => wellConfigured sv
  | Some e =>
      ∃ errs, e = Errors errs ∧ errs ≠ []
        ∧ errs `sublist_of`
            [ ErrorsNew "repository name is empty";
              ErrorsNew "repository owner is empty";
              ErrorsNew "reference of repository is empty";
              ErrorsNew "self job name is empty";
              ErrorsNew "github client is empty" ]
        ∧ (ErrorsNew "repository name is empty" ∈ errs ↔ repo sv = "")
        ∧ (ErrorsNew "repository owner is empty" ∈ errs ↔ owner sv = "")
        ∧ (ErrorsNew "reference of repository is empty" ∈ errs
           ↔ ref sv = "")
        ∧ (ErrorsNew "self job name is empty" ∈ errs ↔ selfJobName sv = "")
        ∧ (ErrorsNew "github client is empty" ∈ errs ↔ client sv = None)
  end.
Proof.
  destruct sv as [[|? ?] [|? ?] [|? ?] [|? ?] [c|]];
    cbn -[elem_of];
    try (by repeat split);
    (eexists; split; [reflexivity|]; split; [done|]; split; [in_order|]);
    repeat split; intros H; try done; try in_list; try not_in_list H.
Qed.


(** X12. A failed construction names every missing field and nothing else:
    the error is one aggregate, never empty, whose errors follow the order
    repo, owner, ref, self job name, client, and each of the five messages
    is in it exactly when its field is empty (or the client nil). *)
Theorem CreateValidator_reports_each_violation (c : option github.Client)
    (opts : list Option) (e : error) :
  CreateValidator c opts = Err e →
  ∃ errs, e = Errors errs ∧ errs ≠ []
    ∧ errs `sublist_of`
        [ ErrorsNew "repository name is empty";
          ErrorsNew "repository owner is empty";
          ErrorsNew "reference of repository is empty";
          ErrorsNew "self job name is empty";
          ErrorsNew "github client is empty" ]
    ∧ (ErrorsNew "repository name is empty" ∈ errs
       ↔ repo (configured c opts) = "")
    ∧ (ErrorsNew "repository owner is empty" ∈ errs
       ↔ owner (configured c opts) = "")
    ∧ (ErrorsNew "reference of repository is empty" ∈ errs
       ↔ ref (configured c opts) = "")
    ∧ (ErrorsNew "self job name is empty" ∈ errs
       ↔ selfJobName (configured c opts) = "")
    ∧ (ErrorsNew "github client is empty" ∈ errs
       ↔ client (configured c opts) = None).
Proof.
  rewrite CreateValidator_configured.
  pose proof (validateFields_messages (configured c opts)) as Hmsg.
  destruct (validateFields (configured c opts)) as [e'|]; [|done].
  by intros [= <-].
Qed.

Lemma CreateValidator_reports_each_violation_witness :
  ∃ errs,
    Errors [ ErrorsNew "repository name is empty";
             ErrorsNew "reference of repository is empty";
             ErrorsNew "self job name is empty";
             ErrorsNew "github client is empty" ]
    = Errors errs
    ∧ (ErrorsNew "repository owner is empty" ∈ errs
       ↔ owner
           (configured None
              [ (λ sv, {| repo := repo sv; owner := "upsidr"; ref := ref sv;
                          selfJobName := selfJobName sv;
                          client := client sv |}) ])
         = "").
Proof.
  destruct (CreateValidator_reports_each_violation None
              [ (λ sv, {| repo := repo sv; owner := "upsidr"; ref := ref sv;
                          selfJobName := selfJobName sv;
                          client := client sv |}) ]
              (Errors [ ErrorsNew "repository name is empty";
                        ErrorsNew "reference of repository is empty";
                        ErrorsNew "self job name is empty";
                        ErrorsNew "github client is empty" ])
              eq_refl)
    as (errs & Heq & _ & _ & _ & Howner & _).
  exists errs. split; [exact Heq|exact Howner].
Defined.

Lemma options_keep_client (opts : list Option) (sv : statusValidator) :
  Forall (λ opt : Option, ∀ sv, client (opt sv) = client sv) opts →
  client (fold_left (λ sv opt, opt sv) opts sv) = client sv.
Proof.
  intros Hopts. revert sv.
  induction Hopts as [|opt opts Hopt _ IH]; intros sv; [done|].
  simpl. by rewrite IH, Hopt.
Qed.

Lemma configured_client (c : option github.Client) (opts : list Option) :
  Forall (λ opt : Option, ∀ sv, client (opt sv) = client sv) opts →
  client (configured c opts) = c.
Proof. intros Hopts. unfold configured. by rewrite options_keep_client. Qed.

(** X13. A nil client is always rejected: with options that leave the client
    alone, [CreateValidator] on a nil client fails, and its error holds the
    message that the client is empty. *)
Theorem nil_client_is_rejected (opts : list Option) :
  Forall (λ opt : Option, ∀ sv, client (opt sv) = client sv) opts →
  ∃ errs, CreateValidator None opts = Err (Errors errs)
    ∧ ErrorsNew "github client is empty" ∈ errs.
Proof.
  intros Hopts. apply configured_client with (c := None) in Hopts.
  rewrite CreateValidator_configured.
  pose proof (validateFields_messages (configured None opts)) as Hmsg.
  destruct (validateFields (configured None opts)) as [e|].
  - destruct Hmsg as (errs & -> & _ & _ & _ & _ & _ & _ & Hclient).
    exists errs. split; [done|]. by apply Hclient.
  - by destruct Hmsg as (_ & _ & _ & _ & Hclient).
Qed.

Lemma nil_client_is_rejected_witness :
  ∃ errs,
    CreateValidator None
      [ (λ sv, {| repo := "merge-gatekeeper"; owner := "upsidr";
                  ref := "main"; selfJobName := "gatekeeper";
                  client := client sv |}) ]
    = Err (Errors errs)
    ∧ ErrorsNew "github client is empty" ∈ errs.
Proof.
  apply (nil_client_is_rejected
           [ (λ sv, {| repo := "merge-gatekeeper"; owner := "upsidr";
                       ref := "main"; selfJobName := "gatekeeper";
                       client := client sv |}) ]).
  constructor; [|constructor]. intros sv. reflexivity.
Defined.




Lemma normalizes_iff (run : github.CheckRun) :
  normalizes run ↔ ¬ malformedRun run ∧ concluded run.
Proof.
  split.
  - intros [g Hg]. split.
    + intros Hm. by rewrite (checkRunEntry_malformed run Hm) in Hg.
    + intros Hst Hc.
      assert (checkRunEntry run = Panic) as Hp; [|congruence].
      apply checkRunEntry_Panic. split; [|done].
      apply checkRunEntry_Job in Hg. congruence.
  - intros [Hm Hc]. by destruct (checkRunEntry_cases run Hc).
Qed.

(** X16. [Validate] returns a result, with no error, exactly when both
    requests are answered, every combined-status entry has its context and
    state, and every check run has its name and status and, if completed,
    its conclusion. The states of the jobs play no part in this. *)
Theorem Validate_returns_a_result_iff (sv : statusValidator) :
  (∃ st, Validate sv = Ok st)
  ↔ ∃ statuses runs,
      answers sv statuses runs
      ∧ Forall (λ s, ¬ malformedStatus s) statuses
      ∧ Forall (λ run, ¬ malformedRun run ∧ concluded run) runs.
Proof.
  split.
  - intros [st (jobs & Hfetch & _)%Validate_Ok_inv].
    destruct (listGhaStatuses_Ok_answers _ _ Hfetch)
      as (statuses & runs & Hans).
    exists statuses, runs. split; [done|].
    rewrite (listGhaStatuses_Ok _ _ _ _ Hans) in Hfetch.
    destruct Hfetch as (legacyJobs & runJobs & Hlegacy & Hrun & _). split.
    + apply Forall_forall. intros s Hs Hm.
      destruct (Forall2_exists_r _ _ _ _ Hlegacy Hs) as (g & _ & Hg).
      by rewrite (combinedEntry_malformed s Hm) in Hg.
    + apply Forall_forall. intros run Hr. apply normalizes_iff.
      destruct (Forall2_exists_r _ _ _ _ Hrun Hr) as (g & _ & Hg).
      by exists g.
  - intros (statuses & runs & Hans & Hst & Hruns).
    unfold Validate. rewrite (listGhaStatuses_answers _ _ _ Hans).
    destruct (well_formed_statuses statuses Hst) as [js ->]. simpl.
    destruct (appendEach_total checkRunEntry runs js) as [jobs ->].
    { eapply Forall_impl; [exact Hruns|]. simpl. intros run Hrun.
      by apply normalizes_iff. }
    simpl. eauto.
Qed.

Lemma Validate_returns_a_result_iff_witness :
  ∃ st, Validate (gatekeeper [legacy "lint" "pending"] []) = Ok st.
Proof.
  apply (Validate_returns_a_result_iff
           (gatekeeper [legacy "lint" "pending"] [])).
  exists [legacy "lint" "pending"], []. split.
  - eexists. repeat split.
  - split; [|constructor].
    constructor; [|constructor]. intros [H|H]; discriminate H.
Defined.
